(** * exercise-merger.py: a shallow embedding and its verified properties

    The program expands [\exsetinput{p}], [\exinput{p}] and the three label
    tokens [\printconcepts], [\printproblems], [\printreview] in a text,
    pass after pass, until a pass changes nothing or the pass budget is
    spent.

    Python [str] values are modelled as lists of characters ([ascii], read
    as the code points U+0000 to U+00FF).  The parts of [pathlib], [re] and
    [logging] that the program calls are modelled next to the program's own
    functions; the file system is a read-only environment, the warning log
    and the module-level flag [MISSING_DIR_WARNED] are threaded as state,
    and the two exceptions that can escape ([ValueError] from
    [Path.with_suffix], [OSError] from [Path.exists] and [Path.is_file])
    are a second outcome of every stateful function. *)

From Stdlib Require Import List Ascii String ZArith Lia Bool Arith.
From Stdlib Require Import DecimalString.
Import ListNotations.

Local Open Scope list_scope.
Local Abbreviation length := Datatypes.length.

(** ** Text *)

Definition text := list ascii.

(** [str "..."] is the text of a literal. *)
Definition str (s : string) : text := list_ascii_of_string s.

Definition text_eqb (a b : text) : bool :=
  if list_eq_dec ascii_dec a b then true else false.

(** ** pathlib (pure POSIX paths) *)

Module pathlib.

(** A parsed path: the root (["" ], ["/"] or ["//"]) and the components
    that remain once empty and ["."] components are dropped. *)
Record Path := mkPath { anchor : text; parts : list text }.

Fixpoint split_slash (s : text) : list text :=
  match s with
  | [] => [[]]
  | c :: r =>
      if Ascii.eqb c "/"%char then [] :: split_slash r
      else match split_slash r with
           | h :: t => (c :: h) :: t
           | [] => [[c]]
           end
  end.

Fixpoint leading_slashes (s : text) : nat :=
  match s with
  | c :: r => if Ascii.eqb c "/"%char then S (leading_slashes r) else 0
  | [] => 0
  end.

Definition kept (component : text) : bool :=
  negb (text_eqb component []) && negb (text_eqb component ["."%char]).

(** [Path(s)] *)
Definition parse (s : text) : Path :=
  {| anchor := match leading_slashes s with
               | 0 => []
               | 2 => str "//"
               | _ => str "/"
               end;
     parts := filter kept (split_slash s) |}.

Fixpoint join_slash (l : list text) : text :=
  match l with
  | [] => []
  | [x] => x
  | x :: r => x ++ "/"%char :: join_slash r
  end.

(** [str(path)] *)
Definition to_text (p : Path) : text :=
  match anchor p, parts p with
  | [], [] => ["."%char]
  | a, l => a ++ join_slash l
  end.

(** [path.name] *)
Definition name (p : Path) : text := last (parts p) [].

(** [name.rfind('.')] *)
Fixpoint rfind_dot (s : text) : option nat :=
  match s with
  | [] => None
  | c :: r =>
      match rfind_dot r with
      | Some i => Some (S i)
      | None => if Ascii.eqb c "."%char then Some 0 else None
      end
  end.

(** [path.suffix]: the last dot and what follows it, unless that dot is
    the first or the last character of the name. *)
Definition suffix (p : Path) : text :=
  let n := name p in
  match rfind_dot n with
  | Some i => if (0 <? i) && (i <? length n - 1) then skipn i n else []
  | None => []
  end.

(** [path.with_suffix(suf)], [None] standing for the [ValueError] raised
    on a path with an empty name. *)
Definition with_suffix (p : Path) (suf : text) : option Path :=
  let n := name p in
  match n with
  | [] => None
  | _ :: _ =>
      let old := suffix p in
      let n' := match old with
                | [] => n ++ suf
                | _ :: _ => firstn (length n - length old) n ++ suf
                end in
      Some {| anchor := anchor p; parts := removelast (parts p) ++ [n'] |}
  end.

(** [base / p] *)
Definition joinpath (base p : Path) : Path :=
  match anchor p with
  | [] => {| anchor := anchor base; parts := parts base ++ parts p |}
  | _ :: _ => p
  end.

End pathlib.

Import pathlib.

(** ** Exceptions that escape *)

Inductive exn :=
| ValueError (p : Path)       (* [with_suffix]: "PosixPath(p) has an empty name" *)
| OSError (reason : text).    (* [exists] or [is_file]: [stat] failed otherwise than
                                 by "no such file"; [reason] is [str(e)] *)

Inductive result (A : Type) :=
| Ok (a : A)
| Err (e : exn).
Arguments Ok {A} a.
Arguments Err {A} e.

(** ** The file system, as the program observes it *)

Inductive read_result :=
| Content (t : text)          (* [read_text] returns [t] *)
| ReadError (reason : text).  (* [read_text] raises; [reason] is [str(e)] *)

Inductive entry :=
| NoEntry                     (* nothing at that path: [stat] fails with ENOENT,
                                 ENOTDIR, EBADF or ELOOP *)
| Directory                   (* a directory, or anything that is not a regular file *)
| Regular (r : read_result)   (* a regular file *)
| Inaccessible (reason : text).
                              (* [stat] fails with another error, such as a name
                                 that is too long or a directory on the way that
                                 may not be searched *)

(** Entries are addressed by [str(path)], relative paths being relative to
    the current working directory. *)
Definition filesystem := text -> entry.

(** [path.exists()]: pathlib takes the four errors above for "no", and
    lets every other [OSError] of [stat] through. *)
Definition path_exists (fs : filesystem) (p : Path) : result bool :=
  match fs (to_text p) with
  | NoEntry => Ok false
  | Inaccessible reason => Err (OSError reason)
  | _ => Ok true
  end.

(** [path.is_file()], with the same treatment of errors. *)
Definition is_file (fs : filesystem) (p : Path) : result bool :=
  match fs (to_text p) with
  | Regular _ => Ok true
  | Inaccessible reason => Err (OSError reason)
  | _ => Ok false
  end.

Definition read_text (fs : filesystem) (p : Path) : read_result :=
  match fs (to_text p) with
  | Regular r => r
  | Inaccessible reason => ReadError reason
  | _ => ReadError (str "not a regular file")
  end.

(** ** State, exceptions and the monad of the stateful functions *)

(** The module-level flag and the warnings logged so far, oldest first. *)
Record State := mkState { MISSING_DIR_WARNED : bool; log : list text }.

Definition initial_state : State :=
  {| MISSING_DIR_WARNED := false; log := [] |}.

Inductive outcome (A : Type) :=
| Returned (a : A) (st : State)
| Raised (e : exn) (st : State).
Arguments Returned {A} a st.
Arguments Raised {A} e st.

Definition M (A : Type) := State -> outcome A.

Definition ret {A} (a : A) : M A := fun st => Returned a st.

Definition bind {A B} (c : M A) (k : A -> M B) : M B :=
  fun st => match c st with
            | Returned a st' => k a st'
            | Raised e st' => Raised e st'
            end.

Definition lift {A} (r : result A) : M A :=
  fun st => match r with Ok a => Returned a st | Err e => Raised e st end.

Notation "x <- c1 ;; c2" := (bind c1 (fun x => c2))
  (at level 61, c1 at next level, right associativity).
Notation "c1 ;; c2" := (bind c1 (fun _ => c2))
  (at level 61, right associativity).

(** [logging.warning(msg)] *)
Definition logging_warning (msg : text) : M unit :=
  fun st => Returned tt {| MISSING_DIR_WARNED := MISSING_DIR_WARNED st;
                           log := log st ++ [msg] |}.

(** [f"{n}"] for an [int] *)
Definition format_int (n : Z) : text := str (NilZero.string_of_int (Z.to_int n)).

(** ** re: the two shapes of pattern the program compiles *)

Module re.

(** [\w] on code points below 256: ASCII letters, digits and the
    underscore, and the Latin-1 letters and numerals. *)
Definition is_word (c : ascii) : bool :=
  let n := N_of_ascii c in
  ((48 <=? n) && (n <=? 57) || (65 <=? n) && (n <=? 90) || (n =? 95)
   || (97 <=? n) && (n <=? 122)
   || (n =? 170) || (n =? 178) || (n =? 179) || (n =? 181) || (n =? 185)
   || (n =? 186) || (188 <=? n) && (n <=? 190)
   || (192 <=? n) && (n <=? 214) || (216 <=? n) && (n <=? 246)
   || (248 <=? n) && (n <=? 255))%N.

Definition is_word_opt (c : option ascii) : bool :=
  match c with Some c => is_word c | None => false end.

(** [\b] between a character (or the start) and the next (or the end). *)
Definition word_boundary (before after : option ascii) : bool :=
  xorb (is_word_opt before) (is_word_opt after).

(** What a pattern finds at the start of [s]: group 0, group 1 and the
    text after the match. *)
Definition matcher := text -> option (text * text * text).

(** Match a literal at the start of [s]; the rest of [s] on success. *)
Fixpoint strip_prefix (lit s : text) : option text :=
  match lit, s with
  | [], _ => Some s
  | a :: lit', b :: s' => if Ascii.eqb a b then strip_prefix lit' s' else None
  | _ :: _, [] => None
  end.

(** The longest run of characters other than [}], and what follows it. *)
Fixpoint span_arg (s : text) : text * text :=
  match s with
  | [] => ([], [])
  | c :: r =>
      if Ascii.eqb c "}"%char then ([], s)
      else let (a, r') := span_arg r in (c :: a, r')
  end.

(** [head([^}]+)\}] where [head] is a literal ending in [{]: the greedy
    class takes the whole run, which must be non-empty and followed by
    [}] (giving characters back cannot help, they are not [}]). *)
Definition match_directive (head : text) : matcher := fun s =>
  match strip_prefix head s with
  | Some r =>
      match span_arg r with
      | (c :: a, _ :: rest) =>
          Some (head ++ (c :: a) ++ ["}"%char], c :: a, rest)
      | _ => None
      end
  | None => None
  end.

(** [tok\b] where [tok] is a literal. *)
Definition match_token (tok : text) : matcher := fun s =>
  match strip_prefix tok s with
  | Some r =>
      if word_boundary (Some (last tok " "%char)) (hd_error r)
      then Some (tok, [], r) else None
  | None => None
  end.

(** The text cut into the pieces that [sub] and [finditer] walk through:
    characters outside every match, and the non-overlapping matches found
    scanning from the left. *)
Inductive piece :=
| Lit (c : ascii)
| Hit (group0 group1 : text).

Fixpoint scan_fuel (m : matcher) (fuel : nat) (s : text) : list piece :=
  match fuel with
  | 0 => map Lit s
  | S fuel' =>
      match s with
      | [] => []
      | c :: s' =>
          match m s with
          | Some (g0, g1, rest) => Hit g0 g1 :: scan_fuel m fuel' rest
          | None => Lit c :: scan_fuel m fuel' s'
          end
      end
  end.

Definition scan (m : matcher) (s : text) : list piece :=
  scan_fuel m (length s) s.

(** [pattern.sub(repl, s)] with a function [repl], called on the matches
    from left to right. *)
Fixpoint sub_pieces (repl : text -> text -> M text) (ps : list piece)
  : M text :=
  match ps with
  | [] => ret []
  | Lit c :: r => out <- sub_pieces repl r ;; ret (c :: out)
  | Hit g0 g1 :: r =>
      x <- repl g0 g1 ;; out <- sub_pieces repl r ;; ret (x ++ out)
  end.

Definition sub_fun (m : matcher) (repl : text -> text -> M text) (s : text)
  : M text :=
  sub_pieces repl (scan m s).

(** [re.sub(pattern, label, s)] with a replacement string that has no
    escapes. *)
Fixpoint sub_const (label : text) (ps : list piece) : text :=
  match ps with
  | [] => []
  | Lit c :: r => c :: sub_const label r
  | Hit _ _ :: r => label ++ sub_const label r
  end.

Definition sub_str (m : matcher) (label : text) (s : text) : text :=
  sub_const label (scan m s).

End re.

Import re.

(** ** The program *)

Definition EXERCISES_DIR : Path := parse (str "exercises").

Definition ensure_tex_extension (path_str : text) : result Path :=
  let path := parse path_str in
  if negb (text_eqb (suffix path) (str ".tex")) then
    match with_suffix path (str ".tex") with
    | Some path' => Ok path'
    | None => Err (ValueError path)
    end
  else Ok path.

Definition load_file_if_exists (fs : filesystem) (rel_path_str : text)
  : M (option text) :=
  path <- lift (ensure_tex_extension rel_path_str) ;;
  found <- lift (is_file fs path) ;;
  if negb found then
    logging_warning (str "Missing file: " ++ to_text path) ;;
    ret None
  else
    match read_text fs path with
    | Content t => ret (Some t)
    | ReadError e =>
        logging_warning (str "Could not read " ++ to_text path ++ str ": " ++ e) ;;
        ret None
    end.

Definition missing_dir_message : text :=
  str "Missing directory: " ++ to_text EXERCISES_DIR.

Definition _warn_missing_exercises_dir_once : M unit :=
  fun st =>
    if negb (MISSING_DIR_WARNED st) then
      Returned tt {| MISSING_DIR_WARNED := true;
                     log := log st ++ [missing_dir_message] |}
    else Returned tt st.

(** The callback [repl] of both content-input functions; [group0] is
    [match.group(0)] and [group1] is [match.group(1)]. *)
Definition repl (fs : filesystem) (group0 group1 : text) : M text :=
  let path := group1 in
  there <- lift (path_exists fs EXERCISES_DIR) ;;
  if negb there then
    _warn_missing_exercises_dir_once ;;
    ret group0
  else
    contents <- load_file_if_exists fs path ;;
    ret (match contents with Some c => c | None => group0 end).

Definition exsetinput_pattern : matcher := match_directive (str "\exsetinput{").
Definition exinput_pattern : matcher := match_directive (str "\exinput{").

Definition replace_exsetinput (fs : filesystem) (t : text) : M text :=
  sub_fun exsetinput_pattern (repl fs) t.

Definition replace_exinput (fs : filesystem) (t : text) : M text :=
  sub_fun exinput_pattern (repl fs) t.

Definition printconcepts : matcher := match_token (str "\printconcepts").
Definition printproblems : matcher := match_token (str "\printproblems").
Definition printreview : matcher := match_token (str "\printreview").

Definition replace_print_tokens (t : text) : text :=
  let t := sub_str printconcepts (str "Terms and Concepts") t in
  let t := sub_str printproblems (str "Problems") t in
  let t := sub_str printreview (str "Review") t in
  t.

Definition process_once (fs : filesystem) (input_text : text) : M text :=
  t <- replace_exsetinput fs input_text ;;
  t <- replace_exinput fs t ;;
  ret (replace_print_tokens t).

Definition budget_message (max_passes : Z) : text :=
  str "Reached max replacement passes (" ++ format_int max_passes
  ++ str "). Some nested directives may remain.".

(** The [for] loop of [process_with_recursion] with [n] iterations left. *)
Fixpoint for_range (fs : filesystem) (max_passes : Z) (n : nat) (prev : text)
  : M text :=
  match n with
  | 0 => logging_warning (budget_message max_passes) ;; ret prev
  | S n' =>
      curr <- process_once fs prev ;;
      if text_eqb curr prev then ret curr
      else for_range fs max_passes n' curr
  end.

Definition process_with_recursion (fs : filesystem) (input_text : text)
  (max_passes : Z) : M text :=
  for_range fs max_passes (Z.to_nat max_passes) input_text.

(** ** Runs on concrete inputs *)

Definition fs_of (l : list (string * entry)) : filesystem :=
  fun p =>
    match find (fun kv => text_eqb (str (fst kv)) p) l with
    | Some kv => snd kv
    | None => NoEntry
    end.

Definition file (s : string) : entry := Regular (Content (str s)).


(** ** Notions used to state the properties *)

(** A match is a non-empty prefix of the text it is found in. *)
Definition sound (m : matcher) : Prop :=
  forall s g0 g1 rest,
    m s = Some (g0, g1, rest) -> s = g0 ++ rest /\ g0 <> [].

(** The text a piece stands for, and the text a list of pieces spells. *)
Definition piece_text (p : piece) : text :=
  match p with Lit c => [c] | Hit g0 _ => g0 end.

Definition pieces_text (ps : list piece) : text := flat_map piece_text ps.

(** The matches among the pieces, as [(group 0, group 1)], in order:
    what [pattern.finditer] yields. *)
Fixpoint hits (ps : list piece) : list (text * text) :=
  match ps with
  | [] => []
  | Lit _ :: r => hits r
  | Hit g0 g1 :: r => (g0, g1) :: hits r
  end.

Definition finditer (m : matcher) (s : text) : list (text * text) :=
  hits (scan m s).

Definition backslash : ascii := "\"%char.

(** A text without any backslash holds no directive and no label token. *)
Definition no_backslash (s : text) : Prop := Forall (fun c => c <> backslash) s.

(** A pattern whose matches all start with a backslash. *)
Definition backslash_headed (m : matcher) : Prop :=
  forall s, m s <> None -> exists r, s = backslash :: r.

(** The state after [_warn_missing_exercises_dir_once]. *)
Definition warn_once (st : State) : State :=
  if MISSING_DIR_WARNED st then st
  else {| MISSING_DIR_WARNED := true; log := log st ++ [missing_dir_message] |}.

(** The state after [logging.warning(msg)]. *)
Definition warned (msg : text) (st : State) : State :=
  {| MISSING_DIR_WARNED := MISSING_DIR_WARNED st; log := log st ++ [msg] |}.

(** How often the missing-directory warning is in the log. *)
Definition missing_dir_warnings (st : State) : nat :=
  count_occ (list_eq_dec ascii_dec) (log st) missing_dir_message.

(** An outcome with a text put in front of the returned text. *)
Definition prepend (pre : text) (o : outcome text) : outcome text :=
  match o with
  | Returned out st => Returned (pre ++ out) st
  | Raised e st => Raised e st
  end.

(** [n] copies of a text, one after the other. *)
Fixpoint copies (n : nat) (s : text) : text :=
  match n with
  | 0 => []
  | S n' => s ++ copies n' s
  end.

(** *** Resolution of a content-input argument (spec, section 4.1) *)


(** The ways the resolution of an argument raises [e]: [exists] raises on
    the base directory; or the base directory exists and the argument has
    no file name to put [.tex] behind, or [is_file] raises on its path. *)
Definition resolution_raises (fs : filesystem) (arg : text) (e : exn) : Prop :=
  path_exists fs EXERCISES_DIR = Err e
  \/ path_exists fs EXERCISES_DIR = Ok true
     /\ (ensure_tex_extension arg = Err e
         \/ exists path,
             ensure_tex_extension arg = Ok path /\ is_file fs path = Err e).

(** The resolution result: the replacement text, or [None] for
    "unresolved". *)
Definition resolve (fs : filesystem) (arg : text) : option text :=
  match path_exists fs EXERCISES_DIR with
  | Ok true =>
      match ensure_tex_extension arg with
      | Ok path =>
          match fs (to_text path) with
          | Regular (Content c) => Some c
          | _ => None
          end
      | Err _ => None
      end
  | _ => None
  end.

(** What a piece becomes in the output of a content-input substitution:
    an unresolved occurrence stays as its matched text. *)
Definition resolved_piece (fs : filesystem) (p : piece) : text :=
  match p with
  | Lit c => [c]
  | Hit g0 g1 => match resolve fs g1 with Some c => c | None => g0 end
  end.

(** Where the spec says the file of [\exinput{p}] is looked up: under the
    base directory. *)
Definition entry_under_base (fs : filesystem) (arg : text) : option entry :=
  match ensure_tex_extension arg with
  | Ok path => Some (fs (to_text (joinpath EXERCISES_DIR path)))
  | Err _ => None
  end.

(** *** Passes of the expander (spec, section 4.2) *)

(** [k] passes in a row, without any comparison. *)
Fixpoint passes (fs : filesystem) (k : nat) (t : text) : M text :=
  match k with
  | 0 => ret t
  | S k' => t' <- process_once fs t ;; passes fs k' t'
  end.

(** Each of the first [k] passes returned a text other than the text it
    started from. *)
Fixpoint all_changed (fs : filesystem) (k : nat) (t : text) (st : State)
  : Prop :=
  match k with
  | 0 => True
  | S k' =>
      match process_once fs t st with
      | Returned t' st' => t' <> t /\ all_changed fs k' t' st'
      | Raised _ _ => False
      end
  end.

(** *** The label tokens *)

Definition label_table : list (text * text) :=
  [(str "\printconcepts", str "Terms and Concepts");
   (str "\printproblems", str "Problems");
   (str "\printreview", str "Review")].

(** The label step, token after token in the order of the table. *)
Definition label_step (t : text) (entry : text * text) : text :=
  sub_str (match_token (fst entry)) (snd entry) t.

(** *** Plain file names *)

(** A character that is neither the path separator nor a dot. *)
Definition plain (c : ascii) : Prop := c <> "/"%char /\ c <> "."%char.

(** *** Texts that a pattern passes over *)

(** [i] is quiet for a pattern when, at the front of any text, the scan
    passes over it character by character and goes on behind it. *)
Definition quiet (m : matcher) (i : text) : Prop :=
  forall rest, scan m (i ++ rest) = map Lit i ++ scan m rest.

Definition all_patterns : list matcher :=
  [exsetinput_pattern; exinput_pattern; printconcepts; printproblems;
   printreview].

(** Quiet for every pattern of the program. *)
Definition inert (i : text) : Prop :=
  forall m, In m all_patterns -> quiet m i.

(** None of the program's patterns finds a match that starts inside [i],
    whatever text follows [i]. *)
Definition no_match_inside (i : text) : Prop :=
  forall m, In m all_patterns ->
  forall a b rest, i = a ++ b -> b <> [] -> m (b ++ rest) = None.

(** *** Texts of the two nesting scenarios *)

(** [\exinput{x}] after [k] passes, when [x.tex] holds the directive
    between [pre] and [post]. *)
Definition grown (pre post : text) (k : nat) : text :=
  copies k pre ++ str "\exinput{x}" ++ copies k post.

(** A document with [\exinput{foo}], the same with the content of
    [foo.tex] in its place, and the same once [\printreview] in that
    content is replaced. *)
Definition nested_doc (a b : text) : text := a ++ str "\exinput{foo}" ++ b.

Definition nested_included (a b c d : text) : text :=
  a ++ (c ++ str "\printreview" ++ d) ++ b.

Definition nested_out (a b c d : text) : text :=
  a ++ c ++ str "Review" ++ d ++ b.

(** ** Further notions: paths *)

(** A component without path separator. *)
Definition slash_free (s : text) : Prop := Forall (fun c => c <> "/"%char) s.

(** The shape of every path that [parse] returns: one of the three roots,
    and components that are non-empty, not ["."] and without separator. *)
Definition normal (p : Path) : Prop :=
  (anchor p = [] \/ anchor p = str "/" \/ anchor p = str "//")
  /\ Forall (fun x => kept x = true /\ slash_free x) (parts p).

(** ** Further notions: the state a computation ends in *)

(** The state when the computation has returned or raised. *)
Definition final_state {A} (o : outcome A) : State :=
  match o with Returned _ st => st | Raised _ st => st end.

(** [st'] comes after [st]: the log has only grown at its end, and the
    flag, once set, is still set. *)
Definition extends (st st' : State) : Prop :=
  (exists l, log st' = log st ++ l)
  /\ (MISSING_DIR_WARNED st = true -> MISSING_DIR_WARNED st' = true).

(** The missing-directory bookkeeping is as it was. *)
Definition same_dir_warnings (st st' : State) : Prop :=
  MISSING_DIR_WARNED st' = MISSING_DIR_WARNED st
  /\ missing_dir_warnings st' = missing_dir_warnings st.

(** A computation whose final state is always related to its initial state. *)
Definition keeps {A} (R : State -> State -> Prop) (c : M A) : Prop :=
  forall st, R st (final_state (c st)).

(** [n] calls of a computation in a row. *)
Fixpoint repeat_call (c : M unit) (n : nat) : M unit :=
  match n with
  | 0 => ret tt
  | S n' => c ;; repeat_call c n'
  end.

(** ** Further notions: positions where a pattern matches *)

(** The pattern matches at no position of the text, the end included. *)
Fixpoint free (m : matcher) (t : text) : Prop :=
  m t = None /\ match t with [] => True | _ :: s => free m s end.

(** At every position of the text where [m2] finds nothing, [m1] finds
    nothing either. *)
Fixpoint compatible (m1 m2 : matcher) (t : text) : Prop :=
  (m2 t = None -> m1 t = None)
  /\ match t with [] => True | _ :: s => compatible m1 m2 s end.

(** ** The interactive part of the program *)

Definition newline : ascii := "010"%char.

(** *** [str] methods, on code points below 256 *)

(** The characters that [str.strip()] removes. *)
Definition is_space (c : ascii) : bool :=
  let n := N_of_ascii c in
  ((9 <=? n) && (n <=? 13) || (28 <=? n) && (n <=? 32)
   || (n =? 133) || (n =? 160))%N.

Fixpoint lstrip (s : text) : text :=
  match s with
  | c :: r => if is_space c then lstrip r else s
  | [] => []
  end.

(** [s.strip()] *)
Definition strip (s : text) : text := rev (lstrip (rev (lstrip s))).

Definition lower_char (c : ascii) : ascii :=
  let n := N_of_ascii c in
  if ((65 <=? n) && (n <=? 90) || (192 <=? n) && (n <=? 214)
      || (216 <=? n) && (n <=? 222))%N
  then ascii_of_N (n + 32) else c.

(** [s.lower()] *)
Definition lower (s : text) : text := map lower_char s.

(** [s.endswith(suf)] *)
Definition endswith (s suf : text) : bool :=
  (length suf <=? length s) && text_eqb (skipn (length s - length suf) s) suf.

(** [lines] joined as [read_multiline_until_blank] returns them:
    ["\n".join(lines) + ("\n" if lines else "")]. *)
Fixpoint join_newline (l : list text) : text :=
  match l with
  | [] => []
  | [x] => x
  | x :: r => x ++ newline :: join_newline r
  end.

Definition joined_lines (lines : list text) : text :=
  join_newline lines ++ (match lines with [] => [] | _ :: _ => [newline] end).

(** *** The terminal *)

(** What one call of [input()] meets. *)
Inductive tty_event :=
| Line (s : text)   (* a line, returned without its newline *)
| Eof               (* end of input: [EOFError] *)
| Interrupt.        (* Ctrl-C: [KeyboardInterrupt] *)

(** The events still to come (after the last one, the input is at its
    end) and the chunks written to standard output so far. *)
Record Console := mkConsole { stdin : list tty_event; stdout : list text }.

(** [print(s)] *)
Definition print (s : text) (c : Console) : Console :=
  {| stdin := stdin c; stdout := stdout c ++ [s ++ [newline]] |}.

Inductive py_error :=
| EOFError
| KeyboardInterrupt
| Escaped (e : exn).          (* a [ValueError] or an [OSError] *)

(** How a function of the interactive part ends. *)
Inductive ending (A : Type) :=
| Done (a : A)
| SystemExit (code : Z)
| Uncaught (e : py_error).
Arguments Done {A} a.
Arguments SystemExit {A} code.
Arguments Uncaught {A} e.

(** The [while] loop of [read_multiline_until_blank] with its two
    [except] clauses: the lines read ([None] after Ctrl-C) and the events
    left. *)
Fixpoint read_lines (events : list tty_event) (lines : list text)
  : option (list text) * list tty_event :=
  match events with
  | [] => (Some lines, [])
  | Eof :: r => (Some lines, r)
  | Interrupt :: r => (None, r)
  | Line s :: r =>
      if text_eqb s [] then (Some lines, r) else read_lines r (lines ++ [s])
  end.

Definition read_multiline_until_blank (prompt : text) (c : Console)
  : ending text * Console :=
  let c := print prompt c in
  let c := print (str "(Finish by pressing Enter on a blank line.)") c in
  match read_lines (stdin c) [] with
  | (Some lines, rest) =>
      (Done (joined_lines lines), {| stdin := rest; stdout := stdout c |})
  | (None, rest) =>
      (SystemExit 1,
       print (newline :: str "Input cancelled.")
         {| stdin := rest; stdout := stdout c |})
  end.

(** *** The operating system, as a parameter *)

(** A call returns, or raises [OSError] leaving the file system in some
    state. *)
Inductive os_result (A : Type) :=
| OsOk (a : A)
| OsFailed (reason : text) (fs : filesystem).
Arguments OsOk {A} a.
Arguments OsFailed {A} reason fs.

(** The three calls that [write_textfile] and [main] make into the
    operating system, left uninterpreted:
    [path.mkdir(parents=True, exist_ok=True)], writing a text to a file
    opened with [path.open("w", encoding="utf-8", newline="")], and
    [str(path.resolve())]. *)
Record OS := mkOS {
  os_mkdir_parents : filesystem -> Path -> os_result filesystem;
  os_write : filesystem -> Path -> text -> os_result filesystem;
  os_resolve : filesystem -> Path -> os_result text
}.

(** [path.parent] *)
Definition parent (p : Path) : Path :=
  match parts p with
  | [] => p
  | _ :: _ => {| anchor := anchor p; parts := removelast (parts p) |}
  end.

Definition write_textfile (os : OS) (fs : filesystem) (filepath : Path)
  (t : text) : os_result filesystem :=
  match os_mkdir_parents os fs (parent filepath) with
  | OsOk fs' => os_write os fs' filepath t
  | OsFailed e fs' => OsFailed e fs'
  end.

(** The name of the output file, from the line typed at the first prompt;
    [None] when the line is blank. *)
Definition output_filename (typed : text) : option text :=
  let filename := strip typed in
  match filename with
  | [] => None
  | _ :: _ =>
      if negb (endswith (lower filename) (str ".txt"))
      then Some (filename ++ str ".txt") else Some filename
  end.

(** Everything [main] acts on. *)
Record World := mkWorld {
  console : Console;
  files : filesystem;
  globals : State
}.

Definition main (os : OS) (w : World) : ending unit * World :=
  let c := {| stdin := stdin (console w);
              stdout := stdout (console w)
                        ++ [str "Enter a filename (without extension is fine): "] |} in
  match stdin c with
  | [] => (Uncaught EOFError, mkWorld c (files w) (globals w))
  | Eof :: r =>
      (Uncaught EOFError, mkWorld (mkConsole r (stdout c)) (files w) (globals w))
  | Interrupt :: r =>
      (Uncaught KeyboardInterrupt,
       mkWorld (mkConsole r (stdout c)) (files w) (globals w))
  | Line typed :: r =>
      let c := mkConsole r (stdout c) in
      match output_filename typed with
      | None =>
          (SystemExit 1,
           mkWorld (print (str "No filename provided. Exiting.") c)
             (files w) (globals w))
      | Some filename =>
          let out_path := parse filename in
          match read_multiline_until_blank
                  (str "Paste your multiline input text below.") c with
          | (SystemExit code, c) =>
              (SystemExit code, mkWorld c (files w) (globals w))
          | (Uncaught e, c) => (Uncaught e, mkWorld c (files w) (globals w))
          | (Done raw_text, c) =>
              match write_textfile os (files w) out_path raw_text with
              | OsFailed e fs' => (Uncaught (Escaped (OSError e)), mkWorld c fs' (globals w))
              | OsOk fs1 =>
                  match process_with_recursion fs1 raw_text 10 (globals w) with
                  | Raised e st => (Uncaught (Escaped e), mkWorld c fs1 st)
                  | Returned processed st =>
                      match write_textfile os fs1 out_path processed with
                      | OsFailed e fs' => (Uncaught (Escaped (OSError e)), mkWorld c fs' st)
                      | OsOk fs2 =>
                          match os_resolve os fs2 out_path with
                          | OsFailed e fs' => (Uncaught (Escaped (OSError e)), mkWorld c fs' st)
                          | OsOk shown =>
                              (Done tt,
                               mkWorld
                                 (print (newline
                                         :: str "Done. Wrote processed output to: "
                                         ++ shown) c)
                                 fs2 st)
                          end
                      end
                  end
              end
          end
      end
  end.

(** A text that [strip] leaves as it is: not empty, no space at either
    end. *)
Definition trimmed (s : text) : Prop :=
  s <> [] /\ is_space (hd " "%char s) = false
  /\ is_space (last s " "%char) = false.
(** * Properties *)

(** ** Text equality *)

Lemma text_eqb_eq (a b : text) : text_eqb a b = true <-> a = b.
Proof.
  unfold text_eqb. destruct (list_eq_dec ascii_dec a b); split; congruence.
Qed.

Lemma text_eqb_refl (a : text) : text_eqb a a = true.
Proof. now apply text_eqb_eq. Qed.

Lemma text_eqb_neq (a b : text) : text_eqb a b = false <-> a <> b.
Proof.
  unfold text_eqb. destruct (list_eq_dec ascii_dec a b); split; congruence.
Qed.

(** ** The library models on samples *)

Example parse_norm :
  map (fun s => to_text (parse (str s)))
      ["bar"; "a//b/./c/"; "."; "/"; "//x"; "///x"; "x/.."]%string
  = map str ["bar"; "a/b/c"; "."; "/"; "//x"; "/x"; "x/.."]%string.
Proof. reflexivity. Qed.

Example suffix_samples :
  map (fun s => suffix (parse (str s)))
      ["bar"; "bar.tex"; "foo.bar.txt"; "a."; ".tex"; ".."]%string
  = map str [""; ".tex"; ".txt"; ""; ""; ""]%string.
Proof. reflexivity. Qed.

Example with_suffix_samples :
  map (fun s => option_map to_text (with_suffix (parse (str s)) (str ".tex")))
      ["bar.txt"; "a."; ".tex"; ".."; "a/b.tex/"; "."; "/"]%string
  = [Some (str "bar.tex"); Some (str "a..tex"); Some (str ".tex.tex");
     Some (str "...tex"); Some (str "a/b.tex"); None; None].
Proof. reflexivity. Qed.

Example format_int_samples :
  map format_int [10; 0; -3]%Z = map str ["10"; "0"; "-3"]%string.
Proof. reflexivity. Qed.

Example run_nested :
  process_with_recursion
    (fs_of [("exercises", Directory);
            ("exercises/a.tex", file "A \exsetinput{exercises/b} \printconcepts");
            ("exercises/b.tex", file "B\printproblems")]%string)
    (str "x \exinput{exercises/a.tex} y \exinput{nope} \printreviews") 10
    initial_state
  = Returned (str "x A BProblems Terms and Concepts y \exinput{nope} \printreviews")
      {| MISSING_DIR_WARNED := false;
         log := [str "Missing file: nope.tex"; str "Missing file: nope.tex";
                 str "Missing file: nope.tex"] |}.
Proof. vm_compute. reflexivity. Qed.


(** ** Monad equations *)

Lemma bind_Returned {A B} (c : M A) (k : A -> M B) st a st' :
  c st = Returned a st' -> bind c k st = k a st'.
Proof. unfold bind. now intros ->. Qed.

Lemma bind_Raised {A B} (c : M A) (k : A -> M B) st e st' :
  c st = Raised e st' -> bind c k st = Raised e st'.
Proof. unfold bind. now intros ->. Qed.

(** ** Scanning *)

Section Scanning.


Lemma strip_prefix_Some lit s r :
  strip_prefix lit s = Some r <-> s = lit ++ r.
Proof.
  revert s. induction lit as [|a lit IH]; intros s; simpl.
  - split; congruence.
  - destruct s as [|b s]; [split; discriminate|].
    destruct (Ascii.eqb_spec a b) as [->|Hne].
    + rewrite IH. split; [now intros ->|congruence].
    + split; [discriminate|]. intros [= ? ?]. congruence.
Qed.

Lemma strip_prefix_app lit r : strip_prefix lit (lit ++ r) = Some r.
Proof. now apply strip_prefix_Some. Qed.

Lemma span_arg_app s a r : span_arg s = (a, r) -> s = a ++ r.
Proof.
  revert a r. induction s as [|c s IH]; intros a r; simpl.
  - now intros [= <- <-].
  - destruct (Ascii.eqb c "}"%char); [now intros [= <- <-]|].
    destruct (span_arg s) as [a' r'] eqn:E. intros [= <- <-].
    simpl. f_equal. now apply IH.
Qed.

Lemma span_arg_stop s a d r : span_arg s = (a, d :: r) -> d = "}"%char.
Proof.
  revert a. induction s as [|c s IH]; intros a; simpl.
  - discriminate.
  - destruct (Ascii.eqb_spec c "}"%char) as [->|Hne]; [now intros [= <- <- <-]|].
    destruct (span_arg s) as [a' r'] eqn:E. intros [= <- ->].
    now apply (IH a').
Qed.

Lemma span_arg_no_rbrace s a r :
  span_arg s = (a, r) -> Forall (fun c => c <> "}"%char) a.
Proof.
  revert a r. induction s as [|c s IH]; intros a r; simpl.
  - intros [= <- <-]. constructor.
  - destruct (Ascii.eqb_spec c "}"%char) as [->|Hne].
    + intros [= <- <-]. constructor.
    + destruct (span_arg s) as [a' r'] eqn:E. intros [= <- <-].
      constructor; [exact Hne|]. now apply (IH a' r').
Qed.

(** What a directive pattern matches: the head, a non-empty argument
    without [}], and [}]. *)
Lemma match_directive_Some head s g0 g1 rest :
  match_directive head s = Some (g0, g1, rest) ->
  s = g0 ++ rest /\ g0 = head ++ g1 ++ ["}"%char] /\ g1 <> []
  /\ Forall (fun c => c <> "}"%char) g1.
Proof.
  unfold match_directive.
  destruct (strip_prefix head s) as [r|] eqn:Hs; [|discriminate].
  apply strip_prefix_Some in Hs.
  destruct (span_arg r) as [a r'] eqn:Ha.
  pose proof (span_arg_app _ _ _ Ha) as Happ.
  pose proof (span_arg_no_rbrace _ _ _ Ha) as Hno.
  destruct a as [|c a]; [discriminate|].
  destruct r' as [|d rest']; [discriminate|].
  apply span_arg_stop in Ha. subst d. intros [= <- <- <-].
  repeat split; [|discriminate|exact Hno].
  subst s r. simpl. rewrite <- app_assoc. simpl. now rewrite <- app_assoc.
Qed.

Lemma match_directive_sound head : sound (match_directive head).
Proof.
  intros s g0 g1 rest Hm.
  destruct (match_directive_Some _ _ _ _ _ Hm) as (Hs & Hg & Hne & _).
  split; [exact Hs|]. subst g0. destruct head, g1; try discriminate; congruence.
Qed.

Lemma match_token_sound tok : tok <> [] -> sound (match_token tok).
Proof.
  intros Hne s g0 g1 rest. unfold match_token.
  destruct (strip_prefix tok s) as [r|] eqn:Hs; [|discriminate].
  apply strip_prefix_Some in Hs.
  destruct (word_boundary _ _); [|discriminate].
  intros [= <- <- <-]. now split.
Qed.

Variable m : matcher.
Hypothesis m_sound : sound m.

Lemma sound_shorter s g0 g1 rest :
  m s = Some (g0, g1, rest) -> length rest < length s.
Proof.
  intros Hm. destruct (m_sound _ _ _ _ Hm) as [-> Hne].
  rewrite length_app. destruct g0; [congruence|simpl; lia].
Qed.

Lemma scan_fuel_irrelevant fuel1 fuel2 s :
  length s <= fuel1 -> length s <= fuel2 ->
  scan_fuel m fuel1 s = scan_fuel m fuel2 s.
Proof.
  revert fuel2 s. induction fuel1 as [|f1 IH]; intros fuel2 s H1 H2.
  - destruct s; [now destruct fuel2|simpl in H1; lia].
  - destruct s as [|c s]; [now destruct fuel2|].
    destruct fuel2 as [|f2]; [simpl in H2; lia|].
    simpl in H1, H2. simpl.
    destruct (m (c :: s)) as [[[g0 g1] rest]|] eqn:Hm.
    + apply sound_shorter in Hm. simpl in Hm.
      f_equal. apply IH; lia.
    + f_equal. apply IH; lia.
Qed.

Lemma scan_fuel_enough fuel s :
  length s <= fuel -> scan_fuel m fuel s = scan m s.
Proof. intros H. now apply scan_fuel_irrelevant. Qed.

Lemma scan_nil : scan m [] = [].
Proof. reflexivity. Qed.

Lemma scan_hit s g0 g1 rest :
  m s = Some (g0, g1, rest) -> scan m s = Hit g0 g1 :: scan m rest.
Proof.
  intros Hm. pose proof (sound_shorter _ _ _ _ Hm) as Hlt.
  destruct s as [|c s]; [simpl in Hlt; lia|].
  unfold scan at 1. simpl. rewrite Hm. f_equal.
  apply scan_fuel_enough. simpl in Hlt. lia.
Qed.

Lemma scan_lit c s :
  m (c :: s) = None -> scan m (c :: s) = Lit c :: scan m s.
Proof. intros Hm. unfold scan. simpl. now rewrite Hm. Qed.

(** Induction along the scan: a property of texts that holds of the
    empty text, is kept by a leading unmatched character and by a leading
    match, holds of every text. *)
Lemma scan_ind (P : text -> Prop) :
  P [] ->
  (forall c s, m (c :: s) = None -> P s -> P (c :: s)) ->
  (forall s g0 g1 rest, m s = Some (g0, g1, rest) -> P rest -> P s) ->
  forall s, P s.
Proof.
  intros Hnil Hlit Hhit s.
  remember (length s) as n eqn:Hn.
  revert s Hn. induction n as [n IH] using lt_wf_ind. intros s Hn.
  destruct s as [|c s]; [exact Hnil|].
  destruct (m (c :: s)) as [[[g0 g1] rest]|] eqn:Hm.
  - apply (Hhit _ _ _ _ Hm).
    apply (IH (length rest)); [|reflexivity].
    subst n. now apply sound_shorter in Hm.
  - apply (Hlit _ _ Hm). apply (IH (length s)); [subst n; simpl; lia|reflexivity].
Qed.

End Scanning.

(** ** Pieces *)

Lemma pieces_text_lits (s : text) : pieces_text (map Lit s) = s.
Proof. induction s as [|c s IH]; simpl; [reflexivity|now f_equal]. Qed.

Lemma hits_lits (s : text) : hits (map Lit s) = [].
Proof. induction s as [|c s IH]; simpl; auto. Qed.


Lemma pieces_text_app (p q : list piece) :
  pieces_text (p ++ q) = pieces_text p ++ pieces_text q.
Proof. apply flat_map_app. Qed.

(** Scanning loses nothing: the pieces spell the text. *)
Lemma scan_text (m : matcher) (Hm : sound m) (s : text) :
  pieces_text (scan m s) = s.
Proof.
  pattern s. apply (scan_ind m Hm); clear s.
  - reflexivity.
  - intros c s Hnone IH. rewrite scan_lit by assumption. simpl. now f_equal.
  - intros s g0 g1 rest Hsome IH. rewrite (scan_hit m Hm _ _ _ _ Hsome).
    simpl. fold (pieces_text (scan m rest)). rewrite IH.
    symmetry. apply (Hm _ _ _ _ Hsome).
Qed.

(** Every match that the scan yields is a match of the pattern. *)
Lemma scan_hits_matched (m : matcher) (Hm : sound m) (s : text) g0 g1 :
  In (g0, g1) (finditer m s) -> exists s' rest, m s' = Some (g0, g1, rest).
Proof.
  unfold finditer. pattern s. apply (scan_ind m Hm); clear s.
  - intros [].
  - intros c s Hnone IH. rewrite scan_lit by assumption. exact IH.
  - intros s h0 h1 rest Hsome IH. rewrite (scan_hit m Hm _ _ _ _ Hsome).
    simpl. intros [[= <- <-]|Hin]; [now exists s, rest|now apply IH].
Qed.

(** ** Substitution over pieces *)

Lemma sub_pieces_lits repl (pre : text) (ps : list piece) st :
  sub_pieces repl (map Lit pre ++ ps) st
  = match sub_pieces repl ps st with
    | Returned out st' => Returned (pre ++ out) st'
    | Raised e st' => Raised e st'
    end.
Proof.
  induction pre as [|c pre IH]; simpl.
  - now destruct (sub_pieces repl ps st).
  - unfold bind at 1. rewrite IH. now destruct (sub_pieces repl ps st).
Qed.

Lemma sub_pieces_hit repl g0 g1 (ps : list piece) st x st1 :
  repl g0 g1 st = Returned x st1 ->
  sub_pieces repl (Hit g0 g1 :: ps) st
  = match sub_pieces repl ps st1 with
    | Returned out st' => Returned (x ++ out) st'
    | Raised e st' => Raised e st'
    end.
Proof. intros H. simpl. unfold bind. rewrite H. reflexivity. Qed.

(** When the callback gives every match back verbatim, the text comes out
    unchanged, and the state is the callbacks' effects in order. *)
Lemma sub_pieces_verbatim repl (f : text -> text -> State -> State) ps :
  (forall g0 g1 st, In (g0, g1) (hits ps) ->
                    repl g0 g1 st = Returned g0 (f g0 g1 st)) ->
  forall st,
    sub_pieces repl ps st
    = Returned (pieces_text ps)
        (fold_left (fun s h => f (fst h) (snd h) s) (hits ps) st).
Proof.
  induction ps as [|[c|g0 g1] ps IH]; intros Hv st; simpl.
  - reflexivity.
  - unfold bind. rewrite IH by exact Hv. reflexivity.
  - unfold bind. rewrite Hv by now left.
    rewrite IH by (intros; apply Hv; now right). reflexivity.
Qed.

Lemma sub_pieces_no_hits repl ps st :
  hits ps = [] -> sub_pieces repl ps st = Returned (pieces_text ps) st.
Proof.
  intros H.
  rewrite (sub_pieces_verbatim repl (fun _ _ s => s)); rewrite H; [reflexivity|].
  intros ? ? ? [].
Qed.

Lemma sub_const_lits label (pre : text) ps :
  sub_const label (map Lit pre ++ ps) = pre ++ sub_const label ps.
Proof. induction pre as [|c pre IH]; simpl; [reflexivity|now f_equal]. Qed.

Lemma sub_const_app label ps qs :
  sub_const label (ps ++ qs) = sub_const label ps ++ sub_const label qs.
Proof.
  induction ps as [|[c|g0 g1] ps IH]; simpl; [reflexivity|now f_equal|].
  now rewrite IH, app_assoc.
Qed.

Lemma sub_const_no_hits label ps :
  hits ps = [] -> sub_const label ps = pieces_text ps.
Proof.
  induction ps as [|[c|g0 g1] ps IH]; simpl; intros H;
    [reflexivity|f_equal; now apply IH|discriminate].
Qed.

(** ** Texts without a backslash hold no match *)

Lemma strip_prefix_backslash lit s r :
  strip_prefix (backslash :: lit) s = Some r -> exists s', s = backslash :: s'.
Proof. intros H. apply strip_prefix_Some in H. subst s. now eexists. Qed.

Lemma match_directive_headed lit :
  backslash_headed (match_directive (backslash :: lit)).
Proof.
  intros s Hs. unfold match_directive in Hs.
  destruct (strip_prefix (backslash :: lit) s) as [r|] eqn:E; [|congruence].
  now apply strip_prefix_backslash in E.
Qed.

Lemma match_token_headed lit :
  backslash_headed (match_token (backslash :: lit)).
Proof.
  intros s Hs. unfold match_token in Hs.
  destruct (strip_prefix (backslash :: lit) s) as [r|] eqn:E; [|congruence].
  now apply strip_prefix_backslash in E.
Qed.

Section Headed.

Variable m : matcher.
Hypothesis m_sound : sound m.
Hypothesis m_headed : backslash_headed m.

Lemma headed_none c s : c <> backslash -> m (c :: s) = None.
Proof.
  intros Hc. destruct (m (c :: s)) eqn:E; [|reflexivity].
  destruct (m_headed (c :: s)) as [r Hr]; [congruence|]. congruence.
Qed.

(** Characters before the first backslash are passed through. *)
Lemma scan_lits_app pre s :
  no_backslash pre -> scan m (pre ++ s) = map Lit pre ++ scan m s.
Proof.
  induction 1 as [|c pre Hc Hpre IH]; simpl; [reflexivity|].
  rewrite scan_lit by now apply headed_none. now f_equal.
Qed.

Lemma scan_no_backslash s : no_backslash s -> scan m s = map Lit s.
Proof.
  intros H. rewrite <- (app_nil_r s) at 1.
  rewrite scan_lits_app by assumption. now rewrite scan_nil, app_nil_r.
Qed.

End Headed.

(** ** The program's patterns *)

Lemma exsetinput_sound : sound exsetinput_pattern.
Proof. apply match_directive_sound. Qed.

Lemma exinput_sound : sound exinput_pattern.
Proof. apply match_directive_sound. Qed.

Lemma exsetinput_headed : backslash_headed exsetinput_pattern.
Proof. apply (match_directive_headed (str "exsetinput{")). Qed.

Lemma exinput_headed : backslash_headed exinput_pattern.
Proof. apply (match_directive_headed (str "exinput{")). Qed.

Lemma label_token_sound tok label :
  In (tok, label) label_table -> sound (match_token tok).
Proof.
  intros H. apply match_token_sound.
  simpl in H. destruct H as [[= <- _]|[[= <- _]|[[= <- _]|[]]]]; discriminate.
Qed.

Lemma label_token_headed tok label :
  In (tok, label) label_table -> backslash_headed (match_token tok).
Proof.
  intros H. simpl in H.
  destruct H as [[= <- _]|[[= <- _]|[[= <- _]|[]]]];
    [apply (match_token_headed (str "printconcepts"))
    |apply (match_token_headed (str "printproblems"))
    |apply (match_token_headed (str "printreview"))].
Qed.

(** ** The callback *)

Lemma warn_missing_eq st :
  _warn_missing_exercises_dir_once st = Returned tt (warn_once st).
Proof.
  unfold _warn_missing_exercises_dir_once, warn_once.
  now destruct (MISSING_DIR_WARNED st).
Qed.

Lemma warn_once_idem st : warn_once (warn_once st) = warn_once st.
Proof. unfold warn_once. now destruct (MISSING_DIR_WARNED st) eqn:E; simpl; rewrite ?E. Qed.

Lemma repl_no_dir fs g0 g1 st :
  path_exists fs EXERCISES_DIR = Ok false ->
  repl fs g0 g1 st = Returned g0 (warn_once st).
Proof.
  intros H. unfold repl, bind, lift. rewrite H. simpl.
  now rewrite warn_missing_eq.
Qed.

Lemma repl_dir_raises fs g0 g1 e st :
  path_exists fs EXERCISES_DIR = Err e -> repl fs g0 g1 st = Raised e st.
Proof. intros H. unfold repl, bind, lift. now rewrite H. Qed.

Lemma load_file_content fs arg path c st :
  ensure_tex_extension arg = Ok path ->
  fs (to_text path) = Regular (Content c) ->
  load_file_if_exists fs arg st = Returned (Some c) st.
Proof.
  intros He Hf. unfold load_file_if_exists, bind, lift, is_file, read_text.
  rewrite He, Hf. reflexivity.
Qed.

Lemma load_file_missing fs arg path st :
  ensure_tex_extension arg = Ok path ->
  is_file fs path = Ok false ->
  load_file_if_exists fs arg st
  = Returned None (warned (str "Missing file: " ++ to_text path) st).
Proof.
  intros He Hf. unfold load_file_if_exists, bind, lift.
  rewrite He, Hf. reflexivity.
Qed.

Lemma load_file_unreadable fs arg path reason st :
  ensure_tex_extension arg = Ok path ->
  fs (to_text path) = Regular (ReadError reason) ->
  load_file_if_exists fs arg st
  = Returned None
      (warned (str "Could not read " ++ to_text path ++ str ": " ++ reason) st).
Proof.
  intros He Hf. unfold load_file_if_exists, bind, lift, is_file, read_text.
  rewrite He, Hf. reflexivity.
Qed.

Lemma load_file_raises fs arg e st :
  ensure_tex_extension arg = Err e ->
  load_file_if_exists fs arg st = Raised e st.
Proof.
  intros He. unfold load_file_if_exists, bind, lift. now rewrite He.
Qed.

Lemma load_file_stat_raises fs arg path e st :
  ensure_tex_extension arg = Ok path ->
  is_file fs path = Err e ->
  load_file_if_exists fs arg st = Raised e st.
Proof.
  intros He Hf. unfold load_file_if_exists, bind, lift. now rewrite He, Hf.
Qed.

Lemma repl_with_dir fs g0 g1 st :
  path_exists fs EXERCISES_DIR = Ok true ->
  repl fs g0 g1 st
  = match load_file_if_exists fs g1 st with
    | Returned (Some c) st' => Returned c st'
    | Returned None st' => Returned g0 st'
    | Raised e st' => Raised e st'
    end.
Proof.
  intros H. unfold repl, bind, lift. rewrite H. simpl.
  destruct (load_file_if_exists fs g1 st) as [[c|] st'|e st']; reflexivity.
Qed.

(** What [is_file] says, entry by entry. *)
Lemma is_file_cases fs path :
  match fs (to_text path) with
  | Regular _ => is_file fs path = Ok true
  | Inaccessible reason => is_file fs path = Err (OSError reason)
  | _ => is_file fs path = Ok false
  end.
Proof. unfold is_file. now destruct (fs (to_text path)). Qed.

(** The callback returns the resolution result, or the matched text when
    there is none; it raises only as the resolution raises, and then
    leaves the state as it was. *)
Lemma repl_resolved fs g0 g1 st :
  match repl fs g0 g1 st with
  | Returned out _ => out = resolved_piece fs (Hit g0 g1)
  | Raised e st' => resolution_raises fs g1 e /\ st' = st
  end.
Proof.
  unfold resolved_piece, resolve, resolution_raises.
  destruct (path_exists fs EXERCISES_DIR) as [[|]|e] eqn:Hd.
  - rewrite repl_with_dir by assumption.
    destruct (ensure_tex_extension g1) as [path|e] eqn:He.
    + pose proof (is_file_cases fs path) as Hc.
      destruct (fs (to_text path)) as [| |[c|reason]|reason] eqn:Hf.
      * now rewrite (load_file_missing _ _ path).
      * now rewrite (load_file_missing _ _ path).
      * now rewrite (load_file_content _ _ path c).
      * now rewrite (load_file_unreadable _ _ path reason).
      * rewrite (load_file_stat_raises _ _ path _ st He Hc).
        split; [|reflexivity]. right. split; [reflexivity|]. right. eauto.
    + rewrite (load_file_raises _ _ e) by assumption.
      split; [|reflexivity]. right. split; [reflexivity|]. now left.
  - now rewrite repl_no_dir.
  - rewrite (repl_dir_raises _ _ _ e) by assumption.
    split; [now left|reflexivity].
Qed.

(** Conversely, the callback raises whenever the resolution raises. *)
Lemma repl_raises_as_resolution fs g0 g1 e st :
  resolution_raises fs g1 e -> repl fs g0 g1 st = Raised e st.
Proof.
  intros [Hd|[Hd [He|(path & He & Hf)]]].
  - now apply repl_dir_raises.
  - rewrite repl_with_dir by exact Hd. now rewrite (load_file_raises _ _ e).
  - rewrite repl_with_dir by exact Hd.
    now rewrite (load_file_stat_raises _ _ path e).
Qed.

(** ** A directive in the text *)

Lemma span_arg_run (arg rest : text) :
  Forall (fun c => c <> "}"%char) arg ->
  span_arg (arg ++ "}"%char :: rest) = (arg, "}"%char :: rest).
Proof.
  induction 1 as [|c arg Hc _ IH]; simpl; [reflexivity|].
  destruct (Ascii.eqb_spec c "}"%char); [contradiction|]. now rewrite IH.
Qed.

(** A head, a non-empty argument without [}] and a [}] are a match. *)
Lemma match_directive_at (head arg rest : text) :
  arg <> [] -> Forall (fun c => c <> "}"%char) arg ->
  match_directive head (head ++ arg ++ "}"%char :: rest)
  = Some (head ++ arg ++ ["}"%char], arg, rest).
Proof.
  intros Hne Hno. unfold match_directive.
  rewrite strip_prefix_app, span_arg_run by assumption.
  destruct arg; [congruence|reflexivity].
Qed.

(** The pieces of a text that holds one directive between two texts
    without backslash. *)
Lemma scan_one_directive (lit arg pre post : text) :
  arg <> [] -> Forall (fun c => c <> "}"%char) arg ->
  no_backslash pre -> no_backslash post ->
  scan (match_directive (backslash :: lit))
    (pre ++ (backslash :: lit) ++ arg ++ "}"%char :: post)
  = map Lit pre
    ++ Hit ((backslash :: lit) ++ arg ++ ["}"%char]) arg :: map Lit post.
Proof.
  intros Hne Hno Hpre Hpost.
  rewrite scan_lits_app;
    auto using match_directive_sound, match_directive_headed.
  f_equal.
  rewrite (scan_hit _ (match_directive_sound _) _ _ _ _
             (match_directive_at _ _ _ Hne Hno)).
  f_equal.
  apply scan_no_backslash;
    auto using match_directive_sound, match_directive_headed.
Qed.

Lemma sub_fun_one_directive (lit arg pre post : text) callback st :
  arg <> [] -> Forall (fun c => c <> "}"%char) arg ->
  no_backslash pre -> no_backslash post ->
  sub_fun (match_directive (backslash :: lit)) callback
    (pre ++ (backslash :: lit) ++ arg ++ "}"%char :: post) st
  = match callback ((backslash :: lit) ++ arg ++ ["}"%char]) arg st with
    | Returned x st' => Returned (pre ++ x ++ post) st'
    | Raised e st' => Raised e st'
    end.
Proof.
  intros Hne Hno Hpre Hpost. unfold sub_fun.
  rewrite scan_one_directive by assumption.
  rewrite sub_pieces_lits. simpl. unfold bind.
  destruct (callback _ arg st) as [x st'|e st']; [|reflexivity].
  rewrite sub_pieces_no_hits by apply hits_lits.
  now rewrite pieces_text_lits.
Qed.

(** ** Argument-path normalization *)

Lemma split_slash_plain (s : text) : Forall plain s -> split_slash s = [s].
Proof.
  induction 1 as [|c s [Hc _] _ IH]; simpl; [reflexivity|].
  destruct (Ascii.eqb_spec c "/"%char); [contradiction|]. now rewrite IH.
Qed.

Lemma split_slash_plain_ext (s ext : text) :
  Forall plain s -> Forall plain ext ->
  split_slash (s ++ "."%char :: ext) = [s ++ "."%char :: ext].
Proof.
  intros Hs He. induction Hs as [|c s [Hc _] _ IH]; simpl.
  - now rewrite split_slash_plain.
  - destruct (Ascii.eqb_spec c "/"%char); [contradiction|]. now rewrite IH.
Qed.

Lemma parse_plain (c : ascii) (r : text) :
  plain c -> split_slash (c :: r) = [c :: r] ->
  parse (c :: r) = {| anchor := []; parts := [c :: r] |}.
Proof.
  intros [Hc Hd] Hsplit. unfold parse. rewrite Hsplit. simpl.
  destruct (Ascii.eqb_spec c "/"%char); [contradiction|].
  f_equal. unfold kept. simpl.
  destruct (text_eqb (c :: r) ["."%char]) eqn:E; [|reflexivity].
  apply text_eqb_eq in E. congruence.
Qed.

Lemma parse_stem (stem : text) :
  stem <> [] -> Forall plain stem ->
  parse stem = {| anchor := []; parts := [stem] |}.
Proof.
  intros Hne Hp. destruct stem as [|c r]; [congruence|].
  apply parse_plain; [exact (Forall_inv Hp)|now apply split_slash_plain].
Qed.

Lemma parse_stem_ext (stem ext : text) :
  stem <> [] -> Forall plain stem -> Forall plain ext ->
  parse (stem ++ "."%char :: ext)
  = {| anchor := []; parts := [stem ++ "."%char :: ext] |}.
Proof.
  intros Hne Hp He. destruct stem as [|c r]; [congruence|].
  apply (parse_plain c (r ++ "."%char :: ext)); [exact (Forall_inv Hp)|].
  now apply (split_slash_plain_ext (c :: r)).
Qed.

Lemma rfind_dot_plain (s : text) : Forall plain s -> rfind_dot s = None.
Proof.
  induction 1 as [|c s [_ Hc] _ IH]; simpl; [reflexivity|].
  rewrite IH. now destruct (Ascii.eqb_spec c "."%char).
Qed.

Lemma rfind_dot_ext (s ext : text) :
  Forall plain ext -> rfind_dot (s ++ "."%char :: ext) = Some (length s).
Proof.
  intros He. induction s as [|c s IH]; simpl.
  - now rewrite rfind_dot_plain.
  - now rewrite IH.
Qed.

(** The suffix of [stem.ext] is [.ext]. *)
Lemma suffix_ext (stem ext : text) :
  stem <> [] -> ext <> [] -> Forall plain ext ->
  suffix {| anchor := []; parts := [stem ++ "."%char :: ext] |}
  = "."%char :: ext.
Proof.
  intros Hs He Hp. unfold suffix, name. simpl.
  rewrite rfind_dot_ext by assumption.
  rewrite length_app. simpl.
  assert (H1 : (0 <? length stem) = true)
    by (apply Nat.ltb_lt; destruct stem; [congruence|simpl; lia]).
  assert (H2 : (length stem <? length stem + S (length ext) - 1) = true)
    by (apply Nat.ltb_lt; destruct ext; [congruence|simpl; lia]).
  rewrite H1, H2. simpl.
  rewrite skipn_app, Nat.sub_diag, skipn_all. reflexivity.
Qed.

Lemma suffix_plain (stem : text) :
  Forall plain stem -> suffix {| anchor := []; parts := [stem] |} = [].
Proof.
  intros H. unfold suffix, name. simpl. now rewrite rfind_dot_plain.
Qed.

Lemma with_suffix_ext (stem ext suf : text) :
  stem <> [] -> ext <> [] -> Forall plain ext ->
  with_suffix {| anchor := []; parts := [stem ++ "."%char :: ext] |} suf
  = Some {| anchor := []; parts := [stem ++ suf] |}.
Proof.
  intros Hs He Hp. unfold with_suffix.
  rewrite suffix_ext by assumption.
  unfold name. simpl parts. simpl last.
  destruct (stem ++ "."%char :: ext) as [|c r] eqn:E;
    [destruct stem; discriminate|].
  rewrite <- E. simpl anchor. simpl removelast. simpl app at 2.
  do 3 f_equal.
  rewrite length_app. simpl length.
  replace (length stem + S (length ext) - S (length ext)) with (length stem) by lia.
  rewrite firstn_app, Nat.sub_diag, firstn_all. simpl. now rewrite app_nil_r.
Qed.

(** C9. [bar] and [bar.tex] normalize to the same path [bar.tex], and
    [bar.ext] with another extension normalizes to [bar.tex] too: the
    extension is replaced, so the result is not [bar.ext.tex].  Here [bar]
    is any non-empty name without separator or dot, and [ext] any such
    extension other than [tex]. *)
Theorem ensure_tex_extension_same_target (stem ext : text)
  (Hstem : stem <> []) (Hplain : Forall plain stem)
  (Hext : ext <> []) (Hplain' : Forall plain ext) (Hother : ext <> str "tex") :
  let target := {| anchor := []; parts := [stem ++ str ".tex"] |} in
  ensure_tex_extension stem = Ok target
  /\ ensure_tex_extension (stem ++ str ".tex") = Ok target
  /\ ensure_tex_extension (stem ++ "."%char :: ext) = Ok target
  /\ to_text target = stem ++ str ".tex"
  /\ to_text target <> stem ++ "."%char :: ext ++ str ".tex".
Proof.
  intros target.
  assert (Htex : Forall plain (str "tex")).
  { repeat constructor; discriminate. }
  split; [|split; [|split; [|split]]].
  - unfold ensure_tex_extension.
    rewrite parse_stem, suffix_plain by assumption.
    simpl negb. cbv iota.
    unfold with_suffix. rewrite suffix_plain by assumption.
    unfold name. simpl.
    destruct stem; [congruence|reflexivity].
  - unfold ensure_tex_extension.
    change (str ".tex") with ("."%char :: str "tex").
    rewrite parse_stem_ext, suffix_ext by (auto; discriminate).
    now rewrite text_eqb_refl.
  - unfold ensure_tex_extension.
    rewrite parse_stem_ext, suffix_ext by assumption.
    destruct (text_eqb ("."%char :: ext) (str ".tex")) eqn:E.
    + apply text_eqb_eq in E. injection E as E. contradiction.
    + simpl negb. cbv iota.
      now rewrite with_suffix_ext.
  - unfold to_text, target. simpl.
    destruct stem; [congruence|reflexivity].
  - unfold to_text, target. simpl. intros E.
    assert (E' : stem ++ str ".tex" = stem ++ "."%char :: ext ++ str ".tex")
      by (destruct stem; [congruence|exact E]).
    apply app_inv_head in E'.
    injection E' as E'. apply (f_equal (@Datatypes.length ascii)) in E'.
    rewrite length_app in E'. simpl in E'.
    destruct ext; [congruence|]. simpl in E'. lia.
Qed.

Lemma ensure_tex_extension_same_target_witness :
  ensure_tex_extension (str "bar") = Ok (parse (str "bar.tex"))
  /\ ensure_tex_extension (str "bar.tex") = Ok (parse (str "bar.tex"))
  /\ ensure_tex_extension (str "bar.txt") = Ok (parse (str "bar.tex"))
  /\ to_text (parse (str "bar.tex")) = str "bar.tex"
  /\ to_text (parse (str "bar.tex")) <> str "bar.txt.tex".
Proof.
  apply (ensure_tex_extension_same_target (str "bar") (str "txt")).
  - discriminate.
  - repeat constructor; discriminate.
  - discriminate.
  - repeat constructor; discriminate.
  - discriminate.
Defined.

(** ** Where included files are looked up *)

(** C1 (as amended). When the base directory exists, the file whose
    contents replace [\exinput{p}] or [\exsetinput{p}] is the one at path
    [p], with the [.tex] extension enforced, relative to the current
    working directory: the base directory is only checked for existence.
    The replacement depends on the file system through that one entry
    only, whatever lies under the base directory. *)
Theorem content_input_reads_cwd_relative
  (fs : filesystem) (p : text) (path : Path) (c : text) (st : State)
  (Hdir : path_exists fs EXERCISES_DIR = Ok true)
  (Hne : p <> []) (Hno : Forall (fun c => c <> "}"%char) p)
  (Hpath : ensure_tex_extension p = Ok path)
  (Hfile : fs (to_text path) = Regular (Content c)) :
  replace_exinput fs (str "\exinput{" ++ p ++ str "}") st = Returned c st
  /\ replace_exsetinput fs (str "\exsetinput{" ++ p ++ str "}") st
     = Returned c st
  /\ forall fs' g0,
      path_exists fs' EXERCISES_DIR = Ok true ->
      fs' (to_text path) = fs (to_text path) ->
      repl fs' g0 p st = Returned c st.
Proof.
  assert (R : forall fs' g0,
             path_exists fs' EXERCISES_DIR = Ok true ->
             fs' (to_text path) = fs (to_text path) ->
             repl fs' g0 p st = Returned c st).
  { intros fs' g0 Hd He. rewrite repl_with_dir by assumption.
    rewrite (load_file_content fs' p path c); congruence. }
  split; [|split; [|exact R]].
  - unfold replace_exinput, exinput_pattern.
    rewrite (sub_fun_one_directive (str "exinput{") p [] []);
      try assumption; try constructor.
    rewrite R by auto. now rewrite app_nil_r.
  - unfold replace_exsetinput, exsetinput_pattern.
    rewrite (sub_fun_one_directive (str "exsetinput{") p [] []);
      try assumption; try constructor.
    rewrite R by auto. now rewrite app_nil_r.
Qed.

Lemma content_input_reads_cwd_relative_witness :
  let fs := fs_of [("exercises", Directory);
                   ("exercises/foo.tex", file "under the base directory");
                   ("foo.tex", file "in the working directory")]%string in
  replace_exinput fs (str "\exinput{foo}") initial_state
  = Returned (str "in the working directory") initial_state
  /\ replace_exsetinput fs (str "\exsetinput{foo}") initial_state
     = Returned (str "in the working directory") initial_state
  /\ forall fs' g0,
      path_exists fs' EXERCISES_DIR = Ok true ->
      fs' (str "foo.tex") = file "in the working directory" ->
      repl fs' g0 (str "foo") initial_state
      = Returned (str "in the working directory") initial_state.
Proof.
  intros fs.
  apply (content_input_reads_cwd_relative fs (str "foo")
           (parse (str "foo.tex")) (str "in the working directory")).
  - reflexivity.
  - discriminate.
  - repeat constructor; discriminate.
  - reflexivity.
  - reflexivity.
Defined.

(** C1 as stated fails: with [foo.tex] under the base directory only, the
    directive finds no file; with another [foo.tex] in the working
    directory, that one is included. *)
Lemma content_input_not_under_base :
  (let fs := fs_of [("exercises", Directory);
                    ("exercises/foo.tex", file "under the base directory")]%string in
   entry_under_base fs (str "foo") = Some (file "under the base directory")
   /\ replace_exinput fs (str "\exinput{foo}") initial_state
      = Returned (str "\exinput{foo}")
          {| MISSING_DIR_WARNED := false;
             log := [str "Missing file: foo.tex"] |})
  /\ (let fs := fs_of [("exercises", Directory);
                       ("exercises/foo.tex", file "under the base directory");
                       ("foo.tex", file "in the working directory")]%string in
      entry_under_base fs (str "foo") = Some (file "under the base directory")
      /\ replace_exinput fs (str "\exinput{foo}") initial_state
         = Returned (str "in the working directory") initial_state).
Proof. repeat split. Qed.

(** ** The expander's loop *)

Lemma logging_warning_eq msg st : logging_warning msg st = Returned tt (warned msg st).
Proof. reflexivity. Qed.

Lemma for_range_0 fs mp t st :
  for_range fs mp 0 t st = Returned t (warned (budget_message mp) st).
Proof. reflexivity. Qed.

Lemma for_range_S fs mp n t st :
  for_range fs mp (S n) t st
  = match process_once fs t st with
    | Returned curr st' =>
        if text_eqb curr t then Returned curr st'
        else for_range fs mp n curr st'
    | Raised e st' => Raised e st'
    end.
Proof.
  simpl. unfold bind.
  destruct (process_once fs t st) as [curr st'|e st']; [|reflexivity].
  now destruct (text_eqb curr t).
Qed.

Lemma passes_S fs k t st :
  passes fs (S k) t st
  = match process_once fs t st with
    | Returned t' st' => passes fs k t' st'
    | Raised e st' => Raised e st'
    end.
Proof. reflexivity. Qed.

(** The three ways a run of the loop with [n] iterations ends. *)
Lemma for_range_trace fs mp n t st :
  (exists k prev st_k st',
      k < n /\ passes fs k t st = Returned prev st_k
      /\ all_changed fs k t st
      /\ process_once fs prev st_k = Returned prev st'
      /\ for_range fs mp n t st = Returned prev st')
  \/ (exists last st_n,
         passes fs n t st = Returned last st_n
         /\ all_changed fs n t st
         /\ for_range fs mp n t st
            = Returned last (warned (budget_message mp) st_n))
  \/ (exists k prev st_k e st',
         k < n /\ passes fs k t st = Returned prev st_k
         /\ all_changed fs k t st
         /\ process_once fs prev st_k = Raised e st'
         /\ for_range fs mp n t st = Raised e st').
Proof.
  revert t st. induction n as [|n IH]; intros t st.
  - right; left. exists t, st. repeat split.
  - rewrite for_range_S.
    destruct (process_once fs t st) as [curr st1|e st1] eqn:Hp.
    + destruct (text_eqb curr t) eqn:Heq.
      * apply text_eqb_eq in Heq. subst curr.
        left. exists 0, t, st, st1. repeat split; [lia|exact Hp].
      * apply text_eqb_neq in Heq.
        destruct (IH curr st1)
          as [(k & prev & sk & s' & Hk & Hpass & Hch & Hfix & Hret)
             |[(last & sn & Hpass & Hch & Hret)
              |(k & prev & sk & e & s' & Hk & Hpass & Hch & Hraise & Hret)]].
        -- left. exists (S k), prev, sk, s'.
           rewrite passes_S, Hp. simpl all_changed. rewrite Hp.
           repeat split; auto; lia.
        -- right; left. exists last, sn.
           rewrite passes_S, Hp. simpl all_changed. rewrite Hp.
           repeat split; auto.
        -- right; right. exists (S k), prev, sk, e, s'.
           rewrite passes_S, Hp. simpl all_changed. rewrite Hp.
           repeat split; auto; lia.
    + right; right. exists 0, t, st, e, st1. repeat split; [lia|exact Hp].
Qed.

(** C5. The expander runs pass after pass and compares the result of each
    pass with the text the pass started from.  Either some pass, the
    [k+1]-th with [k < max_passes], returns its own input, the earlier
    passes having all changed the text, and the expander returns that text
    at once, logging nothing of its own; or all [max_passes] passes changed
    the text, and the expander logs the budget warning once and returns
    the last text.  (A pass that raises ends the run with its exception.) *)
Theorem expander_fixed_point_or_budget
  (fs : filesystem) (input_text : text) (max_passes : Z) (st : State) :
  let n := Z.to_nat max_passes in
  (exists k prev st_k st',
      k < n /\ passes fs k input_text st = Returned prev st_k
      /\ all_changed fs k input_text st
      /\ process_once fs prev st_k = Returned prev st'
      /\ process_with_recursion fs input_text max_passes st = Returned prev st')
  \/ (exists last st_n,
         passes fs n input_text st = Returned last st_n
         /\ all_changed fs n input_text st
         /\ process_with_recursion fs input_text max_passes st
            = Returned last
                {| MISSING_DIR_WARNED := MISSING_DIR_WARNED st_n;
                   log := log st_n ++ [budget_message max_passes] |})
  \/ (exists k prev st_k e st',
         k < n /\ passes fs k input_text st = Returned prev st_k
         /\ all_changed fs k input_text st
         /\ process_once fs prev st_k = Raised e st'
         /\ process_with_recursion fs input_text max_passes st = Raised e st').
Proof.
  intros n. unfold process_with_recursion. apply for_range_trace.
Qed.

(** ** Label tokens *)

Section Token.

(** A token: a backslash, then a body without backslash that ends in a
    word character. *)
Variable body : text.
Hypothesis body_plain : no_backslash body.
Hypothesis body_ends_word : is_word (last (backslash :: body) " "%char) = true.

Local Abbreviation tok := (backslash :: body).
Local Abbreviation m := (match_token (backslash :: body)).

Lemma token_sound : sound m.
Proof. apply match_token_sound. discriminate. Qed.

Lemma token_headed : backslash_headed m.
Proof. apply match_token_headed. Qed.

Lemma token_boundary (r : option ascii) :
  word_boundary (Some (last tok " "%char)) r = negb (is_word_opt r).
Proof.
  unfold word_boundary. cbn [is_word_opt].
  rewrite body_ends_word. now destruct r.
Qed.

(** At the token, followed by no word character: a match. *)
Lemma token_at (post : text) :
  is_word_opt (hd_error post) = false -> m (tok ++ post) = Some (tok, [], post).
Proof.
  intros H. unfold match_token.
  rewrite strip_prefix_app, token_boundary, H. reflexivity.
Qed.


(** What the pattern finds at a position is not altered by a text that
    starts with a backslash and is put after the text. *)
Lemma token_context (s x : text) :
  s <> [] ->
  m (s ++ backslash :: x)
  = match m s with
    | Some (g0, g1, rest) => Some (g0, g1, rest ++ backslash :: x)
    | None => None
    end.
Proof.
  intros Hne. unfold match_token.
  destruct (strip_prefix tok s) as [r|] eqn:Hs.
  - apply strip_prefix_Some in Hs. subst s.
    rewrite <- app_assoc, strip_prefix_app, !token_boundary.
    destruct r as [|c r]; [reflexivity|].
    simpl hd_error. now destruct (is_word_opt (Some c)).
  - destruct (strip_prefix tok (s ++ backslash :: x)) as [r'|] eqn:Hs';
      [|reflexivity].
    exfalso. apply strip_prefix_Some in Hs'.
    apply app_eq_app in Hs' as [l [[H1 H2]|[H1 H2]]].
    + rewrite H1, strip_prefix_app in Hs. discriminate.
    + destruct l as [|c l].
      * rewrite app_nil_r in H1. subst s.
        rewrite <- (app_nil_r tok) in Hs at 2.
        rewrite strip_prefix_app in Hs. discriminate.
      * injection H2 as <- _.
        destruct s as [|c0 s0]; [congruence|].
        injection H1 as _ H1.
        pose proof body_plain as Hb. unfold no_backslash in Hb.
        rewrite H1 in Hb. apply Forall_app in Hb as [_ Hb].
        apply Forall_inv in Hb. congruence.
Qed.

(** Scanning may be cut in front of any backslash. *)
Lemma token_scan_cut (pre x : text) :
  scan m (pre ++ backslash :: x) = scan m pre ++ scan m (backslash :: x).
Proof.
  pattern pre. apply (scan_ind m token_sound); clear pre.
  - reflexivity.
  - intros c s Hnone IH.
    rewrite (scan_lit m c s Hnone). simpl app.
    rewrite scan_lit; [now rewrite IH|].
    change (c :: s ++ backslash :: x) with ((c :: s) ++ backslash :: x).
    rewrite token_context by discriminate. now rewrite Hnone.
  - intros s g0 g1 rest Hsome IH.
    rewrite (scan_hit m token_sound _ _ _ _ Hsome).
    assert (Hs : s <> []).
    { destruct (token_sound _ _ _ _ Hsome) as [-> Hg]. now destruct g0. }
    pose proof (token_context s x Hs) as Hc. rewrite Hsome in Hc.
    rewrite (scan_hit m token_sound _ _ _ _ Hc), IH. reflexivity.
Qed.

(** An occurrence of the token that no word character follows is replaced
    by the label, and the texts around it are treated on their own. *)
Lemma token_replaced (label pre post : text) :
  is_word_opt (hd_error post) = false ->
  sub_str m label (pre ++ tok ++ post)
  = sub_str m label pre ++ label ++ sub_str m label post.
Proof.
  intros H. unfold sub_str.
  change (pre ++ tok ++ post) with (pre ++ backslash :: body ++ post).
  rewrite token_scan_cut, sub_const_app. f_equal.
  change (backslash :: body ++ post) with (tok ++ post).
  rewrite (scan_hit m token_sound _ _ _ _ (token_at post H)). reflexivity.
Qed.


End Token.





(** ** Texts that the patterns pass over *)

Lemma all_patterns_headed m : In m all_patterns -> backslash_headed m.
Proof.
  simpl. intros [<-|[<-|[<-|[<-|[<-|[]]]]]].
  - exact exsetinput_headed.
  - exact exinput_headed.
  - apply (match_token_headed (str "printconcepts")).
  - apply (match_token_headed (str "printproblems")).
  - apply (match_token_headed (str "printreview")).
Qed.

Lemma all_patterns_sound m : In m all_patterns -> sound m.
Proof.
  simpl. intros [<-|[<-|[<-|[<-|[<-|[]]]]]].
  - exact exsetinput_sound.
  - exact exinput_sound.
  - apply match_token_sound; discriminate.
  - apply match_token_sound; discriminate.
  - apply match_token_sound; discriminate.
Qed.

Lemma quiet_nil m : quiet m [].
Proof. intros rest. reflexivity. Qed.

Lemma quiet_app m a b : quiet m a -> quiet m b -> quiet m (a ++ b).
Proof.
  intros Ha Hb rest. rewrite <- app_assoc, Ha, Hb, map_app, app_assoc.
  reflexivity.
Qed.

Lemma quiet_no_backslash m s : backslash_headed m -> no_backslash s -> quiet m s.
Proof. intros Hm Hs rest. now apply scan_lits_app. Qed.

(** A backslash at which the pattern finds nothing, whatever follows, and
    a tail without backslash. *)
Lemma quiet_backslash m tail :
  backslash_headed m -> no_backslash tail ->
  (forall rest, m (backslash :: tail ++ rest) = None) ->
  quiet m (backslash :: tail).
Proof.
  intros Hm Ht Hnone rest. simpl.
  rewrite scan_lit by apply Hnone. f_equal. now apply scan_lits_app.
Qed.

Lemma quiet_scan m i : quiet m i -> scan m i = map Lit i.
Proof.
  intros H. rewrite <- (app_nil_r i) at 1. rewrite H. simpl.
  now rewrite app_nil_r.
Qed.

Lemma quiet_sub_fun m callback i rest st :
  quiet m i ->
  sub_fun m callback (i ++ rest) st = prepend i (sub_fun m callback rest st).
Proof. intros H. unfold sub_fun. rewrite H. apply sub_pieces_lits. Qed.

Lemma quiet_sub_str m label i rest :
  quiet m i -> sub_str m label (i ++ rest) = i ++ sub_str m label rest.
Proof. intros H. unfold sub_str. rewrite H. apply sub_const_lits. Qed.

Lemma quiet_sub_fun_all m callback i st :
  quiet m i -> sub_fun m callback i st = Returned i st.
Proof.
  intros H. rewrite <- (app_nil_r i) at 1.
  rewrite quiet_sub_fun by assumption. simpl. now rewrite app_nil_r.
Qed.

Lemma quiet_sub_str_all m label i : quiet m i -> sub_str m label i = i.
Proof.
  intros H. rewrite <- (app_nil_r i) at 1.
  rewrite quiet_sub_str by assumption. simpl. now rewrite app_nil_r.
Qed.

Lemma inert_no_backslash s : no_backslash s -> inert s.
Proof.
  intros Hs m Hm. apply quiet_no_backslash; [|assumption].
  now apply all_patterns_headed.
Qed.

Lemma inert_app a b : inert a -> inert b -> inert (a ++ b).
Proof. intros Ha Hb m Hm. apply quiet_app; auto. Qed.

(** A text is quiet for a pattern exactly when no match of the pattern
    starts inside it, whatever follows. *)
Lemma quiet_no_match m i :
  sound m ->
  quiet m i
  <-> forall a b rest, i = a ++ b -> b <> [] -> m (b ++ rest) = None.
Proof.
  intros Hm. split.
  - assert (Hhead : forall c j, quiet m (c :: j) ->
                      forall rest, m ((c :: j) ++ rest) = None).
    { intros c j Hq rest. specialize (Hq rest).
      destruct (m ((c :: j) ++ rest)) as [[[g0 g1] r]|] eqn:E; [|reflexivity].
      rewrite (scan_hit m Hm _ _ _ _ E) in Hq. discriminate. }
    intros Hq a. revert i Hq.
    induction a as [|c a IH]; intros i Hq b rest -> Hb.
    + destruct b as [|c b]; [congruence|]. now apply Hhead.
    + apply (IH (a ++ b)); [|reflexivity|exact Hb].
      intros rest'. pose proof (Hq rest') as H.
      simpl in H. rewrite scan_lit in H by apply (Hhead c (a ++ b) Hq rest').
      now injection H.
  - induction i as [|c i IH]; intros H rest; [reflexivity|].
    simpl. rewrite scan_lit
      by (apply (H [] (c :: i)); [reflexivity|discriminate]).
    f_equal. apply IH. intros a b rest' -> Hb.
    now apply (H (c :: a) b).
Qed.

Lemma inert_no_match i : inert i <-> no_match_inside i.
Proof.
  unfold inert, no_match_inside. split; intros H m Hin.
  - exact (proj1 (quiet_no_match m i (all_patterns_sound m Hin)) (H m Hin)).
  - exact (proj2 (quiet_no_match m i (all_patterns_sound m Hin)) (H m Hin)).
Qed.

Lemma inert_inside s : no_match_inside s -> inert s.
Proof. apply inert_no_match. Qed.

Lemma no_backslash_no_match s : no_backslash s -> no_match_inside s.
Proof. intros H. now apply inert_no_match, inert_no_backslash. Qed.

(** A backslash and a text without backslash, at which no pattern
    matches whatever follows: a LaTeX command other than the five. *)
Lemma no_match_command tail :
  no_backslash tail ->
  (forall m rest, In m all_patterns -> m (backslash :: tail ++ rest) = None) ->
  no_match_inside (backslash :: tail).
Proof.
  intros Ht Hnone. apply inert_no_match. intros m Hm.
  apply quiet_backslash; [now apply all_patterns_headed|exact Ht|].
  intros rest. now apply Hnone.
Qed.

Lemma no_match_inside_app a b :
  no_match_inside a -> no_match_inside b -> no_match_inside (a ++ b).
Proof.
  intros Ha Hb. apply inert_no_match, inert_app; now apply inert_no_match.
Qed.

(** One directive between two texts that its pattern passes over. *)
Lemma sub_fun_one_directive_quiet (lit arg pre post : text) callback st :
  arg <> [] -> Forall (fun c => c <> "}"%char) arg ->
  quiet (match_directive (backslash :: lit)) pre ->
  quiet (match_directive (backslash :: lit)) post ->
  sub_fun (match_directive (backslash :: lit)) callback
    (pre ++ (backslash :: lit) ++ arg ++ "}"%char :: post) st
  = match callback ((backslash :: lit) ++ arg ++ ["}"%char]) arg st with
    | Returned x st' => Returned (pre ++ x ++ post) st'
    | Raised e st' => Raised e st'
    end.
Proof.
  intros Hne Hno Hpre Hpost. unfold sub_fun.
  rewrite Hpre.
  rewrite (scan_hit _ (match_directive_sound _) _ _ _ _
             (match_directive_at _ _ _ Hne Hno)).
  rewrite (quiet_scan _ _ Hpost).
  rewrite sub_pieces_lits. simpl. unfold bind.
  destruct (callback _ arg st) as [x st'|e st']; [|reflexivity].
  rewrite sub_pieces_no_hits by apply hits_lits.
  now rewrite pieces_text_lits.
Qed.

Lemma in_all_patterns :
  In exsetinput_pattern all_patterns /\ In exinput_pattern all_patterns
  /\ In printconcepts all_patterns /\ In printproblems all_patterns
  /\ In printreview all_patterns.
Proof. simpl. tauto. Qed.

Lemma replace_print_tokens_quiet i rest :
  quiet printconcepts i -> quiet printproblems i -> quiet printreview i ->
  replace_print_tokens (i ++ rest) = i ++ replace_print_tokens rest.
Proof.
  intros H1 H2 H3. unfold replace_print_tokens.
  now rewrite (quiet_sub_str _ _ _ _ H1), (quiet_sub_str _ _ _ _ H2),
    (quiet_sub_str _ _ _ _ H3).
Qed.

Lemma replace_print_tokens_quiet_all i :
  quiet printconcepts i -> quiet printproblems i -> quiet printreview i ->
  replace_print_tokens i = i.
Proof.
  intros H1 H2 H3. rewrite <- (app_nil_r i) at 1.
  rewrite replace_print_tokens_quiet by assumption.
  now rewrite app_nil_r.
Qed.

(** An inert text at the front stays where it is through a pass, and the
    pass treats the rest as if the inert text were not there. *)
Lemma process_once_inert fs i rest st :
  inert i ->
  process_once fs (i ++ rest) st = prepend i (process_once fs rest st).
Proof.
  intros Hi. destruct in_all_patterns as (P1 & P2 & P3 & P4 & P5).
  unfold process_once, bind, replace_exsetinput, replace_exinput.
  rewrite quiet_sub_fun by auto.
  destruct (sub_fun exsetinput_pattern (repl fs) rest st) as [t1 st1|e st1];
    [|reflexivity].
  simpl prepend. cbv iota.
  rewrite quiet_sub_fun by auto.
  destruct (sub_fun exinput_pattern (repl fs) t1 st1) as [t2 st2|e st2];
    [|reflexivity].
  simpl prepend. cbv iota. unfold ret. simpl.
  now rewrite replace_print_tokens_quiet by auto.
Qed.

Lemma for_range_inert fs mp n i rest st :
  inert i ->
  for_range fs mp n (i ++ rest) st = prepend i (for_range fs mp n rest st).
Proof.
  intros Hi. revert rest st. induction n as [|n IH]; intros rest st.
  - reflexivity.
  - rewrite !for_range_S, process_once_inert by assumption.
    destruct (process_once fs rest st) as [curr st'|e st']; [|reflexivity].
    simpl prepend. cbv iota.
    destruct (text_eqb curr rest) eqn:E.
    + apply text_eqb_eq in E. subst curr. now rewrite text_eqb_refl.
    + assert (E' : text_eqb (i ++ curr) (i ++ rest) = false).
      { apply text_eqb_neq. apply text_eqb_neq in E.
        intros H. apply app_inv_head in H. contradiction. }
      rewrite E'. apply IH.
Qed.

Lemma process_once_inert_all fs i st :
  inert i -> process_once fs i st = Returned i st.
Proof.
  intros Hi. rewrite <- (app_nil_r i) at 1.
  rewrite process_once_inert by assumption.
  simpl. now rewrite app_nil_r.
Qed.

(** ** Directives with an empty argument *)

Lemma empty_exinput_inert : inert (str "\exinput{}").
Proof.
  intros m Hm.
  apply (quiet_backslash m (str "exinput{}")).
  - now apply all_patterns_headed.
  - repeat constructor; discriminate.
  - intros rest. simpl in Hm.
    destruct Hm as [<-|[<-|[<-|[<-|[<-|[]]]]]]; reflexivity.
Qed.

Lemma empty_exsetinput_inert : inert (str "\exsetinput{}").
Proof.
  intros m Hm.
  apply (quiet_backslash m (str "exsetinput{}")).
  - now apply all_patterns_headed.
  - repeat constructor; discriminate.
  - intros rest. simpl in Hm.
    destruct Hm as [<-|[<-|[<-|[<-|[<-|[]]]]]]; reflexivity.
Qed.

(** The callback is only ever called on a non-empty argument. *)
Lemma finditer_argument_nonempty head t g0 g1 :
  In (g0, g1) (finditer (match_directive head) t) ->
  g1 <> [] /\ g0 = head ++ g1 ++ ["}"%char].
Proof.
  intros H.
  apply (scan_hits_matched _ (match_directive_sound head)) in H
    as (s' & rest & Hm).
  apply match_directive_Some in Hm as (_ & Hg & Hne & _). now split.
Qed.

(** C10 (as amended). [\exinput{}] and [\exsetinput{}] are no directive
    occurrences: neither pattern matches where such a text starts,
    whatever follows it, and no match that the patterns find in any text
    is such a text or has an empty argument, so the callback, which alone
    looks up files and logs warnings, is never called with one.  Behind a
    text inside which none of the five patterns finds a match, whatever
    follows, such a text is left as it is by every pass and by the whole
    expansion, for every file system and every text after it; what follows
    is treated exactly as if the text in front and the empty directive
    were not there: the same output behind them, the same warnings, the
    same exception if any. *)
Theorem empty_argument_not_a_directive
  (e : text) (He : e = str "\exinput{}" \/ e = str "\exsetinput{}") :
  (forall rest, exsetinput_pattern (e ++ rest) = None
                /\ exinput_pattern (e ++ rest) = None)
  /\ (forall t g0 g1,
         In (g0, g1) (finditer exsetinput_pattern t
                      ++ finditer exinput_pattern t) ->
         g1 <> [] /\ g0 <> e)
  /\ (forall (fs : filesystem) (pre rest : text) (max_passes : Z) (st : State),
         no_match_inside pre ->
         process_once fs (pre ++ e ++ rest) st
         = prepend (pre ++ e) (process_once fs rest st)
         /\ process_with_recursion fs (pre ++ e ++ rest) max_passes st
            = prepend (pre ++ e)
                (process_with_recursion fs rest max_passes st))
  /\ (forall (fs : filesystem) (st : State),
         process_once fs e st = Returned e st).
Proof.
  assert (Hi : inert e).
  { destruct He as [-> | ->];
      [apply empty_exinput_inert|apply empty_exsetinput_inert]. }
  split; [intros rest; destruct He as [-> | ->]; split; reflexivity|].
  split; [|split].
  - intros t g0 g1 Hin. apply in_app_or in Hin.
    destruct Hin as [Hin|Hin];
      apply finditer_argument_nonempty in Hin as [Hne ->];
      (split; [exact Hne|]);
      destruct g1 as [|c g1]; try congruence;
      destruct He as [-> | ->]; intros H; simpl in H;
      try discriminate;
      repeat (injection H as _ H);
      destruct g1; discriminate.
  - intros fs pre rest max_passes st Hpre.
    assert (Hpi : inert (pre ++ e)).
    { apply inert_app; [now apply inert_no_match|exact Hi]. }
    split.
    + rewrite app_assoc. now apply process_once_inert.
    + rewrite app_assoc. unfold process_with_recursion.
      now apply for_range_inert.
  - intros fs st. now apply process_once_inert_all.
Qed.

Lemma empty_argument_not_a_directive_witness :
  let fs := fs_of [("exercises", Directory); ("x.tex", file "X")]%string in
  process_with_recursion fs
    (str "\section{One} \exinput{} and \exinput{x}") 10 initial_state
  = prepend (str "\section{One} \exinput{}")
      (process_with_recursion fs (str " and \exinput{x}") 10 initial_state).
Proof.
  intros fs.
  refine (proj2 (proj1 (proj2 (proj2 (empty_argument_not_a_directive
            (str "\exinput{}") (or_introl eq_refl))))
            fs (str "\section{One} ") (str " and \exinput{x}") 10%Z
            initial_state _)).
  apply inert_no_match. intros m Hm.
  apply (quiet_app m (str "\section{One}") (str " ")).
  - apply (quiet_backslash m (str "section{One}")).
    + now apply all_patterns_headed.
    + repeat constructor; discriminate.
    + intros rest. simpl in Hm.
      destruct Hm as [<-|[<-|[<-|[<-|[<-|[]]]]]]; reflexivity.
  - apply quiet_no_backslash; [now apply all_patterns_headed|].
    repeat constructor; discriminate.
Defined.

(** C10 as stated fails, for it is stated of every input text: the text
    [\exinput{}] at the end of [\exinput{a\exinput{}] lies inside a match
    of the [\exinput] pattern, whose argument is [a\exinput{].  The pass
    looks up the file of that argument; it logs a warning when the file is
    missing, and replaces the whole match, the empty directive with it,
    when the file is there. *)
Lemma empty_argument_inside_match :
  let t := str "\exinput{a\exinput{}" in
  exinput_pattern t = Some (t, str "a\exinput{", [])
  /\ process_once (fs_of [("exercises", Directory)]%string) t initial_state
     = Returned t
         {| MISSING_DIR_WARNED := false;
            log := [str "Missing file: a\exinput{.tex"] |}
  /\ process_once
       (fs_of [("exercises", Directory);
               ("a\exinput{.tex", file "A")]%string) t initial_state
     = Returned (str "A") initial_state.
Proof. repeat split. Qed.

(** ** A missing base directory *)

Lemma fold_warn_once (l : list (text * text)) st :
  fold_left (fun s _ => warn_once s) l st
  = match l with [] => st | _ :: _ => warn_once st end.
Proof.
  destruct l as [|h l]; [reflexivity|]. simpl.
  induction l as [|h' l IH]; simpl; [reflexivity|].
  now rewrite warn_once_idem.
Qed.

Lemma sub_fun_no_dir fs m t st :
  sound m -> path_exists fs EXERCISES_DIR = Ok false ->
  sub_fun m (repl fs) t st
  = Returned t (match finditer m t with [] => st | _ :: _ => warn_once st end).
Proof.
  intros Hm Hdir. unfold sub_fun.
  rewrite (sub_pieces_verbatim (repl fs) (fun _ _ => warn_once))
    by (intros; now apply repl_no_dir).
  now rewrite scan_text, fold_warn_once.
Qed.

Lemma process_once_no_dir fs t st :
  path_exists fs EXERCISES_DIR = Ok false ->
  exists st',
    process_once fs t st = Returned (replace_print_tokens t) st'
    /\ (st' = st \/ st' = warn_once st).
Proof.
  intros Hdir. unfold process_once, bind, replace_exsetinput, replace_exinput.
  rewrite (sub_fun_no_dir fs _ t st exsetinput_sound Hdir).
  rewrite (sub_fun_no_dir fs _ t _ exinput_sound Hdir).
  eexists. split; [reflexivity|].
  destruct (finditer exsetinput_pattern t), (finditer exinput_pattern t);
    rewrite ?warn_once_idem; auto.
Qed.

Lemma for_range_no_dir fs mp n t st :
  path_exists fs EXERCISES_DIR = Ok false ->
  exists out st' s1 k,
    for_range fs mp n t st = Returned out st'
    /\ k <= n /\ out = Nat.iter k replace_print_tokens t
    /\ (s1 = st \/ s1 = warn_once st)
    /\ (st' = s1 \/ st' = warned (budget_message mp) s1).
Proof.
  intros Hdir. revert t st. induction n as [|n IH]; intros t st.
  - exists t, (warned (budget_message mp) st), st, 0.
    repeat split; auto.
  - rewrite for_range_S.
    destruct (process_once_no_dir fs t st Hdir) as (st1 & -> & Hst1).
    destruct (text_eqb (replace_print_tokens t) t) eqn:E.
    + exists (replace_print_tokens t), st1, st1, 1.
      repeat split; auto; lia.
    + destruct (IH (replace_print_tokens t) st1)
        as (out & st' & s1 & k & Hr & Hk & Hout & Hs1 & Hst').
      exists out, st', s1, (S k). rewrite Hr.
      repeat split; auto; try lia.
      * now rewrite Nat.iter_succ_r.
      * destruct Hst1 as [->| ->]; [exact Hs1|].
        rewrite warn_once_idem in Hs1. right. tauto.
Qed.

Lemma budget_message_other mp : budget_message mp <> missing_dir_message.
Proof. discriminate. Qed.

Lemma missing_dir_warnings_warn_once st :
  missing_dir_warnings (warn_once st)
  = missing_dir_warnings st + (if MISSING_DIR_WARNED st then 0 else 1).
Proof.
  unfold warn_once, missing_dir_warnings.
  destruct (MISSING_DIR_WARNED st); cbn [log];
    [symmetry; apply Nat.add_0_r|].
  rewrite count_occ_app, count_occ_cons_eq by reflexivity.
  now rewrite count_occ_nil.
Qed.

Lemma missing_dir_warnings_budget mp st :
  missing_dir_warnings (warned (budget_message mp) st) = missing_dir_warnings st.
Proof.
  unfold warned, missing_dir_warnings. cbn [log].
  rewrite count_occ_app.
  rewrite (count_occ_cons_neq _ _ (budget_message_other mp)).
  rewrite count_occ_nil. apply Nat.add_0_r.
Qed.

(** C6 (as amended). When the base directory does not exist, both
    content-input substitutions return their text unchanged, so a pass
    changes the text by its label step alone (a label token inside a
    directive's argument included), and the expansion returns the text
    after some number of label steps: the text itself when it holds no
    label token to replace.  Over the whole expansion the
    missing-directory warning is logged at most once, and not at all when
    the flag was already set. *)
Theorem missing_base_directory_leaves_directives
  (fs : filesystem) (t : text) (max_passes : Z) (st : State)
  (Hdir : path_exists fs EXERCISES_DIR = Ok false) :
  (exists st', replace_exsetinput fs t st = Returned t st')
  /\ (exists st', replace_exinput fs t st = Returned t st')
  /\ (exists st', process_once fs t st = Returned (replace_print_tokens t) st')
  /\ exists out st' k,
      process_with_recursion fs t max_passes st = Returned out st'
      /\ k <= Z.to_nat max_passes
      /\ out = Nat.iter k replace_print_tokens t
      /\ (replace_print_tokens t = t -> out = t)
      /\ missing_dir_warnings st'
         <= missing_dir_warnings st + (if MISSING_DIR_WARNED st then 0 else 1).
Proof.
  split; [|split; [|split]].
  - eexists. apply (sub_fun_no_dir fs _ t st exsetinput_sound Hdir).
  - eexists. apply (sub_fun_no_dir fs _ t st exinput_sound Hdir).
  - destruct (process_once_no_dir fs t st Hdir) as (st' & H & _). eauto.
  - destruct (for_range_no_dir fs max_passes (Z.to_nat max_passes) t st Hdir)
      as (out & st' & s1 & k & Hr & Hk & Hout & Hs1 & Hst').
    exists out, st', k. split; [exact Hr|]. split; [exact Hk|].
    split; [exact Hout|]. split.
    + intros Hfix. subst out. clear - Hfix.
      induction k as [|k IH]; simpl; [reflexivity|]. now rewrite IH.
    + assert (H1 : missing_dir_warnings s1
                   <= missing_dir_warnings st
                      + (if MISSING_DIR_WARNED st then 0 else 1)).
      { destruct Hs1 as [->| ->];
          [lia|rewrite missing_dir_warnings_warn_once; lia]. }
      destruct Hst' as [->| ->]; [exact H1|].
      now rewrite missing_dir_warnings_budget.
Qed.

Lemma missing_base_directory_leaves_directives_witness :
  exists out st' k,
    process_with_recursion (fs_of [("foo.tex", file "F")]%string)
      (str "\exinput{foo} \exsetinput{foo} \exinput{foo}") 10 initial_state
    = Returned out st'
    /\ k <= 10
    /\ out = Nat.iter k replace_print_tokens
               (str "\exinput{foo} \exsetinput{foo} \exinput{foo}")
    /\ (replace_print_tokens
          (str "\exinput{foo} \exsetinput{foo} \exinput{foo}")
        = str "\exinput{foo} \exsetinput{foo} \exinput{foo}" ->
        out = str "\exinput{foo} \exsetinput{foo} \exinput{foo}")
    /\ missing_dir_warnings st' <= 1.
Proof.
  apply (missing_base_directory_leaves_directives
           (fs_of [("foo.tex", file "F")]%string)
           (str "\exinput{foo} \exsetinput{foo} \exinput{foo}") 10
           initial_state).
  reflexivity.
Defined.

(** C6 as stated fails: without base directory, the occurrence
    [\exinput{\printreview}] does not remain textually unchanged, the label
    step rewrites its argument. *)
Lemma missing_base_directory_occurrence_changed :
  let fs := fs_of [] in
  let doc := str "\exinput{\printreview}" in
  path_exists fs EXERCISES_DIR = Ok false
  /\ finditer exinput_pattern doc = [(doc, str "\printreview")]
  /\ process_with_recursion fs doc 10 initial_state
     = Returned (str "\exinput{Review}")
         {| MISSING_DIR_WARNED := true;
            log := [str "Missing directory: exercises"] |}
  /\ str "\exinput{Review}" <> doc.
Proof. repeat split. discriminate. Qed.

(** ** Unresolved occurrences *)




(** The output of a substitution, piece by piece; it raises only as the
    resolution of one of its occurrences raises. *)
Lemma sub_pieces_resolved fs ps st :
  match sub_pieces (repl fs) ps st with
  | Returned out _ => out = flat_map (resolved_piece fs) ps
  | Raised e _ =>
      exists h0 h1, In (h0, h1) (hits ps) /\ resolution_raises fs h1 e
  end.
Proof.
  revert st. induction ps as [|[c|g0 g1] ps IH]; intros st.
  - reflexivity.
  - simpl sub_pieces. unfold bind. specialize (IH st).
    destruct (sub_pieces (repl fs) ps st) as [out st'|e st'].
    + simpl. now subst out.
    + exact IH.
  - simpl sub_pieces. unfold bind.
    pose proof (repl_resolved fs g0 g1 st) as Hr.
    destruct (repl fs g0 g1 st) as [x st1|e st1].
    + specialize (IH st1).
      destruct (sub_pieces (repl fs) ps st1) as [out st'|e st'].
      * unfold ret. simpl flat_map. now subst x out.
      * destruct IH as (h0 & h1 & Hin & He).
        exists h0, h1. split; [now right|exact He].
    + destruct Hr as [He _]. exists g0, g1. split; [now left|exact He].
Qed.




(** ** A missing file *)

Lemma sub_fun_no_match m callback t st :
  sound m -> finditer m t = [] -> sub_fun m callback t st = Returned t st.
Proof.
  intros Hm H. unfold sub_fun.
  rewrite sub_pieces_no_hits by exact H. now rewrite scan_text.
Qed.

Lemma sub_str_no_match m label t :
  sound m -> finditer m t = [] -> sub_str m label t = t.
Proof.
  intros Hm H. unfold sub_str.
  rewrite sub_const_no_hits by exact H. now apply scan_text.
Qed.

Lemma replace_print_tokens_no_match t :
  finditer printconcepts t = [] -> finditer printproblems t = [] ->
  finditer printreview t = [] -> replace_print_tokens t = t.
Proof.
  intros H1 H2 H3. unfold replace_print_tokens.
  rewrite (sub_str_no_match printconcepts) by
    (auto; apply match_token_sound; discriminate).
  rewrite (sub_str_no_match printproblems) by
    (auto; apply match_token_sound; discriminate).
  apply sub_str_no_match; [apply match_token_sound; discriminate|exact H3].
Qed.

(** C4. The document holds exactly one directive occurrence,
    [\exinput{foo}], and no other directive or label token; the base
    directory exists and [foo.tex] is no file.  Then the expansion, with
    any budget of at least one pass, returns the document unchanged after
    its first pass and logs exactly one warning, the one that names
    [foo.tex]. *)
Theorem missing_file_one_warning
  (fs : filesystem) (doc : text) (max_passes : Z) (st : State)
  (Hdir : path_exists fs EXERCISES_DIR = Ok true)
  (Hmissing : is_file fs (parse (str "foo.tex")) = Ok false)
  (Hone : finditer exinput_pattern doc = [(str "\exinput{foo}", str "foo")])
  (Hset : finditer exsetinput_pattern doc = [])
  (Hconcepts : finditer printconcepts doc = [])
  (Hproblems : finditer printproblems doc = [])
  (Hreview : finditer printreview doc = [])
  (Hbudget : (1 <= max_passes)%Z) :
  process_with_recursion fs doc max_passes st
  = Returned doc
      {| MISSING_DIR_WARNED := MISSING_DIR_WARNED st;
         log := log st ++ [str "Missing file: foo.tex"] |}.
Proof.
  unfold process_with_recursion.
  destruct (Z.to_nat max_passes) as [|n] eqn:En; [lia|].
  rewrite for_range_S.
  assert (Hpass : process_once fs doc st
                  = Returned doc (warned (str "Missing file: foo.tex") st)).
  { unfold process_once, bind, replace_exsetinput, replace_exinput.
    rewrite (sub_fun_no_match _ _ _ _ exsetinput_sound Hset).
    unfold sub_fun.
    rewrite (sub_pieces_verbatim (repl fs)
               (fun _ _ => warned (str "Missing file: foo.tex"))).
    - fold (finditer exinput_pattern doc). rewrite Hone. simpl fold_left.
      rewrite (scan_text _ exinput_sound). unfold ret.
      now rewrite replace_print_tokens_no_match.
    - fold (finditer exinput_pattern doc). rewrite Hone.
      intros g0 g1 s [[= <- <-]|[]].
      rewrite repl_with_dir by exact Hdir.
      now rewrite (load_file_missing fs (str "foo") (parse (str "foo.tex"))). }
  rewrite Hpass, text_eqb_refl. reflexivity.
Qed.

Lemma missing_file_one_warning_witness :
  process_with_recursion (fs_of [("exercises", Directory)]%string)
    (str "\section{One} \exinput{foo} \exinput{} \printreviews") 10
    initial_state
  = Returned (str "\section{One} \exinput{foo} \exinput{} \printreviews")
      {| MISSING_DIR_WARNED := false;
         log := [str "Missing file: foo.tex"] |}.
Proof.
  apply (missing_file_one_warning (fs_of [("exercises", Directory)]%string)
           (str "\section{One} \exinput{foo} \exinput{} \printreviews") 10
           initial_state); try reflexivity.
  lia.
Defined.

(** ** A file that includes itself *)

Lemma copies_quiet m n s : quiet m s -> quiet m (copies n s).
Proof.
  intros H. induction n as [|n IH]; simpl; [apply quiet_nil|].
  now apply quiet_app.
Qed.

Lemma copies_snoc n s : copies n s ++ s = s ++ copies n s.
Proof.
  induction n as [|n IH]; simpl; [now rewrite app_nil_r|].
  now rewrite <- app_assoc, IH.
Qed.

Lemma copies_length n s : length (copies n s) = n * length s.
Proof.
  induction n as [|n IH]; simpl; [reflexivity|].
  rewrite length_app, IH. reflexivity.
Qed.

(** An [\exinput] directive whose argument has no backslash is passed
    over by the other four patterns. *)
Lemma exinput_directive_quiet arg m :
  no_backslash arg ->
  In m [exsetinput_pattern; printconcepts; printproblems; printreview] ->
  quiet m (str "\exinput{" ++ arg ++ str "}").
Proof.
  intros Harg Hm.
  apply (quiet_backslash m (str "exinput{" ++ arg ++ str "}")).
  - apply all_patterns_headed. simpl in *. tauto.
  - apply Forall_app. split; [repeat constructor; discriminate|].
    apply Forall_app. split; [exact Harg|repeat constructor; discriminate].
  - intros rest. simpl in Hm.
    destruct Hm as [<-|[<-|[<-|[<-|[]]]]]; reflexivity.
Qed.

Lemma exinput_x_quiet m :
  In m [exsetinput_pattern; printconcepts; printproblems; printreview] ->
  quiet m (str "\exinput{x}").
Proof.
  apply (exinput_directive_quiet (str "x")). repeat constructor; discriminate.
Qed.

Section SelfInclusion.

Variable fs : filesystem.
Variables pre post : text.
Hypothesis Hdir : path_exists fs EXERCISES_DIR = Ok true.
Hypothesis Hfile :
  fs (str "x.tex") = Regular (Content (pre ++ str "\exinput{x}" ++ post)).
Hypothesis Hpre : no_match_inside pre.
Hypothesis Hpost : no_match_inside post.

Local Abbreviation grown := (grown pre post).

Lemma grown_quiet k m :
  In m [exsetinput_pattern; printconcepts; printproblems; printreview] ->
  quiet m (grown k).
Proof.
  intros Hm. unfold grown.
  assert (Hall : In m all_patterns) by (simpl in *; tauto).
  apply quiet_app; [now apply copies_quiet, inert_inside|].
  apply quiet_app; [now apply exinput_x_quiet|].
  now apply copies_quiet, inert_inside.
Qed.

Lemma grown_S k :
  copies k pre ++ (pre ++ str "\exinput{x}" ++ post) ++ copies k post
  = grown (S k).
Proof.
  unfold grown. simpl copies.
  rewrite <- !app_assoc, (app_assoc (copies k pre) pre), copies_snoc.
  now rewrite <- !app_assoc.
Qed.

Lemma self_inclusion_pass k st :
  process_once fs (grown k) st = Returned (grown (S k)) st.
Proof.
  unfold process_once, bind, replace_exsetinput, replace_exinput.
  rewrite quiet_sub_fun_all by (apply grown_quiet; simpl; tauto).
  unfold exinput_pattern, grown.
  change (copies k pre ++ str "\exinput{x}" ++ copies k post)
    with (copies k pre ++ (backslash :: str "exinput{") ++ str "x"
          ++ "}"%char :: copies k post).
  rewrite (sub_fun_one_directive_quiet (str "exinput{") (str "x"));
    [|discriminate|repeat constructor; discriminate
     |apply copies_quiet, inert_inside; [exact Hpre|simpl; tauto]
     |apply copies_quiet, inert_inside; [exact Hpost|simpl; tauto]].
  rewrite repl_with_dir by exact Hdir.
  rewrite (load_file_content fs (str "x") (parse (str "x.tex"))
             (pre ++ str "\exinput{x}" ++ post)) by (reflexivity || exact Hfile).
  unfold ret. rewrite grown_S.
  rewrite replace_print_tokens_quiet_all
    by (apply grown_quiet; simpl; tauto).
  reflexivity.
Qed.

Lemma grown_length k :
  length (grown k) = k * (length pre + length post) + 11.
Proof.
  unfold grown. rewrite !length_app, !copies_length. simpl length. lia.
Qed.

Lemma self_inclusion_passes n k st :
  passes fs n (grown k) st = Returned (grown (n + k)) st.
Proof.
  revert k. induction n as [|n IH]; intros k; [reflexivity|].
  rewrite passes_S, self_inclusion_pass, IH.
  now rewrite Nat.add_succ_r.
Qed.

Lemma self_inclusion_loop mp n k st :
  pre ++ post <> [] ->
  for_range fs mp n (grown k) st
  = Returned (grown (n + k)) (warned (budget_message mp) st).
Proof.
  intros Hne. revert k. induction n as [|n IH]; intros k; [reflexivity|].
  rewrite for_range_S, self_inclusion_pass.
  assert (E : text_eqb (grown (S k)) (grown k) = false).
  { apply text_eqb_neq. intros H.
    apply (f_equal (@Datatypes.length ascii)) in H.
    rewrite !grown_length in H.
    assert (0 < length pre + length post).
    { rewrite <- length_app. destruct (pre ++ post); [congruence|simpl; lia]. }
    simpl in H. lia. }
  rewrite E, IH. now rewrite Nat.add_succ_r.
Qed.

Lemma self_inclusion_fixed mp n st :
  pre ++ post = [] ->
  for_range fs mp (S n) (str "\exinput{x}") st
  = Returned (str "\exinput{x}") st.
Proof.
  intros Hnil. apply app_eq_nil in Hnil as [Hp Hq].
  rewrite for_range_S.
  pose proof (self_inclusion_pass 0 st) as H.
  unfold grown in H. simpl copies in H. rewrite Hp, Hq in H.
  simpl in H. simpl. rewrite H. reflexivity.
Qed.

End SelfInclusion.

(** C3 (as amended). With [x.tex] holding [\exinput{x}] between two texts
    inside which none of the five patterns finds a match, whatever follows
    (two texts without backslash, for one), [k] passes in a row turn [\exinput{x}] into the
    directive between [k] copies of each text, and the expansion of
    [\exinput{x}] always returns, with the text of some [k] passes, [k] at
    most [max_passes].  When there is some text around the directive in
    the file, each pass puts one more copy of it around the directive, so
    no pass is a fixed point: all [max_passes] passes are run, the budget
    warning is logged, once, and the text grown [max_passes] times is
    returned.  When the file holds the directive and nothing else, the
    first pass returns its input and the expansion, with a budget of at
    least one pass, returns at once, without any warning. *)
Theorem self_inclusion_terminates
  (fs : filesystem) (pre post : text) (max_passes : Z) (st : State)
  (Hdir : path_exists fs EXERCISES_DIR = Ok true)
  (Hfile : fs (str "x.tex")
           = Regular (Content (pre ++ str "\exinput{x}" ++ post)))
  (Hpre : no_match_inside pre) (Hpost : no_match_inside post) :
  let n := Z.to_nat max_passes in
  (forall k,
      passes fs k (str "\exinput{x}") st
      = Returned (copies k pre ++ str "\exinput{x}" ++ copies k post) st)
  /\ (exists k st',
         k <= n
         /\ process_with_recursion fs (str "\exinput{x}") max_passes st
            = Returned (copies k pre ++ str "\exinput{x}" ++ copies k post)
                st')
  /\ (pre ++ post <> [] ->
      process_with_recursion fs (str "\exinput{x}") max_passes st
      = Returned (copies n pre ++ str "\exinput{x}" ++ copies n post)
          {| MISSING_DIR_WARNED := MISSING_DIR_WARNED st;
             log := log st ++ [budget_message max_passes] |})
  /\ (pre ++ post = [] -> 1 <= n ->
      process_with_recursion fs (str "\exinput{x}") max_passes st
      = Returned (str "\exinput{x}") st).
Proof.
  intros n.
  assert (Hloop : pre ++ post <> [] ->
            process_with_recursion fs (str "\exinput{x}") max_passes st
            = Returned (copies n pre ++ str "\exinput{x}" ++ copies n post)
                (warned (budget_message max_passes) st)).
  { intros Hne. unfold process_with_recursion. fold n.
    pose proof (self_inclusion_loop fs pre post Hdir Hfile Hpre Hpost
                  max_passes n 0 st Hne) as H.
    now rewrite Nat.add_0_r in H. }
  assert (Hfix : pre ++ post = [] -> 1 <= n ->
            process_with_recursion fs (str "\exinput{x}") max_passes st
            = Returned (str "\exinput{x}") st).
  { intros Hnil Hn. unfold process_with_recursion. fold n.
    destruct n as [|n']; [lia|].
    now apply (self_inclusion_fixed fs pre post Hdir Hfile Hpre Hpost). }
  split; [|split; [|split; [exact Hloop|exact Hfix]]].
  - intros k.
    pose proof (self_inclusion_passes fs pre post Hdir Hfile Hpre Hpost k 0 st)
      as H.
    now rewrite Nat.add_0_r in H.
  - destruct (list_eq_dec ascii_dec (pre ++ post) []) as [Hnil|Hne].
    + destruct n as [|n'] eqn:En.
      * exists 0, (warned (budget_message max_passes) st).
        split; [lia|]. unfold process_with_recursion. fold n.
        rewrite En. reflexivity.
      * exists 0, st. split; [lia|].
        rewrite Hfix by (exact Hnil || lia). reflexivity.
    + exists n. eexists. split; [lia|]. now apply Hloop.
Qed.

Lemma self_inclusion_terminates_witness :
  process_with_recursion
    (fs_of [("exercises", Directory);
            ("x.tex", file "\item again \exinput{x}")]%string)
    (str "\exinput{x}") 3 initial_state
  = Returned (str "\item again \item again \item again \exinput{x}")
      {| MISSING_DIR_WARNED := false;
         log := [str "Reached max replacement passes (3). Some nested directives may remain."] |}.
Proof.
  refine (proj1 (proj2 (proj2 (self_inclusion_terminates
            (fs_of [("exercises", Directory);
                    ("x.tex", file "\item again \exinput{x}")]%string)
            (str "\item again ") [] 3 initial_state eq_refl eq_refl _ _))) _).
  - apply (no_match_command (str "item again ")).
    + repeat constructor; discriminate.
    + intros m rest Hm. simpl in Hm.
      destruct Hm as [<-|[<-|[<-|[<-|[<-|[]]]]]]; reflexivity.
  - apply no_backslash_no_match. constructor.
  - discriminate.
Defined.

(** C3 as stated fails: when [x.tex] holds [\exinput{x}] and nothing else,
    the first pass is a fixed point and no budget warning is logged. *)
Lemma self_inclusion_without_warning :
  let fs := fs_of [("exercises", Directory); ("x.tex", file "\exinput{x}")]%string in
  process_with_recursion fs (str "\exinput{x}") 10 initial_state
  = Returned (str "\exinput{x}") initial_state
  /\ log initial_state = [].
Proof. split; reflexivity. Qed.

(** ** A label token in an included file *)

Lemma printreview_quiet m :
  In m [printconcepts; printproblems] -> quiet m (str "\printreview").
Proof.
  intros Hm.
  apply (quiet_backslash m (str "printreview")).
  - apply all_patterns_headed. simpl in *. tauto.
  - repeat constructor; discriminate.
  - intros rest. simpl in Hm. destruct Hm as [<-|[<-|[]]]; reflexivity.
Qed.

Lemma no_match_inside_quiet m s :
  In m all_patterns -> no_match_inside s -> quiet m s.
Proof. intros Hm Hs. now apply inert_inside. Qed.

Lemma review_inert : inert (str "Review").
Proof. apply inert_no_backslash. repeat constructor; discriminate. Qed.

Section NestedLabel.

Variable fs : filesystem.
Variables a b c d : text.
Hypothesis Hdir : path_exists fs EXERCISES_DIR = Ok true.
Hypothesis Hfile :
  fs (str "foo.tex") = Regular (Content (c ++ str "\printreview" ++ d)).
Hypothesis Ha : no_match_inside a.
Hypothesis Hb : no_match_inside b.
Hypothesis Hc : no_match_inside c.
Hypothesis Hd : no_match_inside d.
Hypothesis Hboundary : is_word_opt (hd_error (d ++ b)) = false.

Local Abbreviation doc := (nested_doc a b).
Local Abbreviation included := (nested_included a b c d).
Local Abbreviation out := (nested_out a b c d).

Lemma nested_doc_quiet m :
  In m [exsetinput_pattern; printconcepts; printproblems; printreview] ->
  quiet m doc.
Proof.
  intros Hm. unfold nested_doc.
  assert (Hall : In m all_patterns) by (simpl in *; tauto).
  apply quiet_app; [now apply no_match_inside_quiet|].
  apply quiet_app; [|now apply no_match_inside_quiet].
  apply (exinput_directive_quiet (str "foo")); [|exact Hm].
  repeat constructor; discriminate.
Qed.

Lemma nested_exsetinput_step st : replace_exsetinput fs doc st = Returned doc st.
Proof.
  unfold replace_exsetinput.
  now rewrite quiet_sub_fun_all by (apply nested_doc_quiet; simpl; tauto).
Qed.

Lemma nested_content_step st : replace_exinput fs doc st = Returned included st.
Proof.
  unfold replace_exinput, exinput_pattern, nested_doc.
  change (a ++ str "\exinput{foo}" ++ b)
    with (a ++ (backslash :: str "exinput{") ++ str "foo" ++ "}"%char :: b).
  rewrite (sub_fun_one_directive_quiet (str "exinput{") (str "foo"));
    [|discriminate|repeat constructor; discriminate
     |apply inert_inside; [exact Ha|simpl; tauto]
     |apply inert_inside; [exact Hb|simpl; tauto]].
  rewrite repl_with_dir by exact Hdir.
  now rewrite (load_file_content fs (str "foo") (parse (str "foo.tex"))
                 (c ++ str "\printreview" ++ d)) by (reflexivity || exact Hfile).
Qed.

Lemma nested_labels : replace_print_tokens included = out.
Proof.
  assert (E : included = (a ++ c) ++ str "\printreview" ++ (d ++ b)).
  { unfold nested_included. now rewrite <- !app_assoc. }
  assert (Hac : no_match_inside (a ++ c)) by now apply no_match_inside_app.
  assert (Hdb : no_match_inside (d ++ b)) by now apply no_match_inside_app.
  destruct in_all_patterns as (P1 & P2 & P3 & P4 & P5).
  assert (Q : forall m, In m [printconcepts; printproblems] ->
                        quiet m included).
  { intros m Hm. rewrite E.
    assert (Hall : In m all_patterns) by (simpl in *; tauto).
    apply quiet_app; [now apply no_match_inside_quiet|].
    apply quiet_app; [now apply printreview_quiet|].
    now apply no_match_inside_quiet. }
  unfold replace_print_tokens.
  rewrite (quiet_sub_str_all printconcepts) by (apply Q; simpl; tauto).
  rewrite (quiet_sub_str_all printproblems) by (apply Q; simpl; tauto).
  rewrite E. unfold printreview.
  rewrite (token_replaced (str "printreview"));
    [|repeat constructor; discriminate|reflexivity|exact Hboundary].
  fold printreview.
  rewrite !quiet_sub_str_all by now apply no_match_inside_quiet.
  unfold nested_out. now rewrite <- !app_assoc.
Qed.

Lemma nested_first_pass st : process_once fs doc st = Returned out st.
Proof.
  unfold process_once, bind, replace_exsetinput.
  rewrite quiet_sub_fun_all by (apply nested_doc_quiet; simpl; tauto).
  rewrite nested_content_step. unfold ret. now rewrite nested_labels.
Qed.

Lemma nested_out_inert : inert out.
Proof.
  unfold nested_out.
  apply inert_app; [now apply inert_inside|].
  apply inert_app; [now apply inert_inside|].
  apply inert_app; [exact review_inert|].
  apply inert_app; now apply inert_inside.
Qed.

Lemma nested_second_pass st : process_once fs out st = Returned out st.
Proof. apply process_once_inert_all, nested_out_inert. Qed.

End NestedLabel.

(** C2 (as amended). [foo.tex] holds [\printreview] and the document
    holds [\exinput{foo}], each between two texts inside which none of
    the five patterns finds a match, whatever follows (texts without
    backslash, for one), and no word character follows the token.
    Then the first pass does both steps: its content-input step replaces
    the directive by the content of the file ([replace_exsetinput] leaves
    the document as it is, [replace_exinput] brings the content in), and
    its label step replaces the [\printreview] just brought in by
    "Review".  The second pass changes nothing, so the expansion, with a
    budget of two passes or more, returns the text with "Review" and logs
    no warning. *)
Theorem nested_label_expanded_in_first_pass
  (fs : filesystem) (a b c d : text) (max_passes : Z) (st : State)
  (Hdir : path_exists fs EXERCISES_DIR = Ok true)
  (Hfile : fs (str "foo.tex")
           = Regular (Content (c ++ str "\printreview" ++ d)))
  (Ha : no_match_inside a) (Hb : no_match_inside b)
  (Hc : no_match_inside c) (Hd : no_match_inside d)
  (Hboundary : is_word_opt (hd_error (d ++ b)) = false)
  (Hbudget : (2 <= max_passes)%Z) :
  let doc := a ++ str "\exinput{foo}" ++ b in
  let included := a ++ (c ++ str "\printreview" ++ d) ++ b in
  let out := a ++ c ++ str "Review" ++ d ++ b in
  replace_exsetinput fs doc st = Returned doc st
  /\ replace_exinput fs doc st = Returned included st
  /\ replace_print_tokens included = out
  /\ process_once fs doc st = Returned out st
  /\ process_once fs out st = Returned out st
  /\ process_with_recursion fs doc max_passes st = Returned out st.
Proof.
  intros doc included out.
  change (replace_exsetinput fs (nested_doc a b) st
          = Returned (nested_doc a b) st
          /\ replace_exinput fs (nested_doc a b) st
             = Returned (nested_included a b c d) st
          /\ replace_print_tokens (nested_included a b c d)
             = nested_out a b c d
          /\ process_once fs (nested_doc a b) st
             = Returned (nested_out a b c d) st
          /\ process_once fs (nested_out a b c d) st
             = Returned (nested_out a b c d) st
          /\ process_with_recursion fs (nested_doc a b) max_passes st
             = Returned (nested_out a b c d) st).
  clear doc included out.
  split; [now apply nested_exsetinput_step|].
  split; [now apply nested_content_step|].
  split; [now apply nested_labels|].
  split; [now apply nested_first_pass|].
  split; [now apply nested_second_pass|].
  unfold process_with_recursion.
  destruct (Z.to_nat max_passes) as [|[|n]] eqn:En; try lia.
  rewrite for_range_S.
  rewrite (nested_first_pass fs a b c d) by assumption.
  destruct (text_eqb (nested_out a b c d) (nested_doc a b)); [reflexivity|].
  rewrite for_range_S.
  rewrite (nested_second_pass fs a b c d) by assumption.
  now rewrite text_eqb_refl.
Qed.

Lemma nested_label_expanded_in_first_pass_witness :
  let fs := fs_of [("exercises", Directory);
                   ("foo.tex", file "\textbf{\printreview}")]%string in
  let doc := str "\section{One} \exinput{foo} end" in
  let included := str "\section{One} \textbf{\printreview} end" in
  let out := str "\section{One} \textbf{Review} end" in
  replace_exsetinput fs doc initial_state = Returned doc initial_state
  /\ replace_exinput fs doc initial_state = Returned included initial_state
  /\ replace_print_tokens included = out
  /\ process_once fs doc initial_state = Returned out initial_state
  /\ process_once fs out initial_state = Returned out initial_state
  /\ process_with_recursion fs doc 10 initial_state
     = Returned out initial_state.
Proof.
  intros fs.
  apply (nested_label_expanded_in_first_pass fs
           (str "\section{One} ") (str " end") (str "\textbf{") (str "}")
           10 initial_state).
  - reflexivity.
  - reflexivity.
  - apply (no_match_inside_app (str "\section{One}") (str " ")).
    + apply (no_match_command (str "section{One}")).
      * repeat constructor; discriminate.
      * intros m rest Hm. simpl in Hm.
        destruct Hm as [<-|[<-|[<-|[<-|[<-|[]]]]]]; reflexivity.
    + apply no_backslash_no_match. repeat constructor; discriminate.
  - apply no_backslash_no_match. repeat constructor; discriminate.
  - apply (no_match_command (str "textbf{")).
    + repeat constructor; discriminate.
    + intros m rest Hm. simpl in Hm.
      destruct Hm as [<-|[<-|[<-|[<-|[<-|[]]]]]]; reflexivity.
  - apply no_backslash_no_match. repeat constructor; discriminate.
  - reflexivity.
  - discriminate.
Defined.

(** C2 as stated fails: the first pass does not stop at the content of the
    file, it returns "Review" at once; the second pass changes nothing. *)
Lemma first_pass_not_file_content :
  let fs := fs_of [("exercises", Directory);
                   ("foo.tex", file "\printreview")]%string in
  process_once fs (str "\exinput{foo}") initial_state
  = Returned (str "Review") initial_state
  /\ str "Review" <> str "\printreview"
  /\ process_once fs (str "Review") initial_state
     = Returned (str "Review") initial_state.
Proof. repeat split. discriminate. Qed.

(** * Further properties *)

(** ** Paths *)

Lemma split_slash_nonempty (s : text) : split_slash s <> [].
Proof.
  destruct s as [|c s]; simpl; [discriminate|].
  destruct (Ascii.eqb c "/"%char); [discriminate|].
  destruct (split_slash s); discriminate.
Qed.

Lemma split_slash_slash_free (s : text) : Forall slash_free (split_slash s).
Proof.
  induction s as [|c s IH]; simpl.
  - repeat constructor.
  - destruct (Ascii.eqb_spec c "/"%char) as [->|Hc].
    + constructor; [constructor|exact IH].
    + destruct (split_slash s) as [|h t]; [repeat constructor; exact Hc|].
      inversion IH; subst. constructor; [|assumption].
      constructor; assumption.
Qed.

Lemma split_slash_one (x : text) : slash_free x -> split_slash x = [x].
Proof.
  induction 1 as [|c x Hc _ IH]; simpl; [reflexivity|].
  destruct (Ascii.eqb_spec c "/"%char); [contradiction|]. now rewrite IH.
Qed.

Lemma split_slash_cut (x s : text) :
  slash_free x -> split_slash (x ++ "/"%char :: s) = x :: split_slash s.
Proof.
  induction 1 as [|c x Hc _ IH]; simpl; [reflexivity|].
  destruct (Ascii.eqb_spec c "/"%char); [contradiction|]. now rewrite IH.
Qed.

Lemma split_join (l : list text) :
  l <> [] -> Forall slash_free l -> split_slash (join_slash l) = l.
Proof.
  intros Hne Hl. induction Hl as [|x l Hx Hl IH]; [congruence|].
  destruct l as [|y r].
  - simpl. now apply split_slash_one.
  - change (join_slash (x :: y :: r)) with (x ++ "/"%char :: join_slash (y :: r)).
    rewrite split_slash_cut by assumption. f_equal. apply IH. discriminate.
Qed.

Lemma filter_kept_all (l : list text) :
  Forall (fun x => kept x = true /\ slash_free x) l -> filter kept l = l.
Proof.
  induction 1 as [|x l [Hk _] _ IH]; simpl; [reflexivity|].
  now rewrite Hk, IH.
Qed.

Lemma leading_slashes_join (l : list text) :
  Forall (fun x => kept x = true /\ slash_free x) l ->
  leading_slashes (join_slash l) = 0.
Proof.
  intros H. destruct H as [|x l [Hk Hx] _]; [reflexivity|].
  assert (Hc : exists c x', x = c :: x' /\ c <> "/"%char).
  { destruct x as [|c x']; [discriminate|].
    exists c, x'. split; [reflexivity|]. exact (Forall_inv Hx). }
  destruct Hc as (c & x' & -> & Hc).
  destruct l; simpl; now destruct (Ascii.eqb_spec c "/"%char).
Qed.

Lemma parse_normal (s : text) : normal (parse s).
Proof.
  split.
  - unfold parse. simpl.
    destruct (leading_slashes s) as [|[|[|n]]]; auto.
  - unfold parse. simpl. apply Forall_forall. intros x Hx.
    apply filter_In in Hx as [Hin Hk]. split; [exact Hk|].
    pose proof (split_slash_slash_free s) as H.
    rewrite Forall_forall in H. now apply H.
Qed.

(** [Path(str(p)) == p] for every path in normal form. *)
Lemma parse_to_text (p : Path) : normal p -> parse (to_text p) = p.
Proof.
  destruct p as [a l]. intros [Ha Hl]. simpl in Ha, Hl.
  pose proof (filter_kept_all l Hl) as Hf.
  pose proof (leading_slashes_join l Hl) as H0.
  assert (Hsf : Forall slash_free l).
  { eapply Forall_impl; [|exact Hl]. now intros x [_ Hx]. }
  assert (Hsplit : filter kept (split_slash (join_slash l)) = l).
  { destruct l as [|x r]; [reflexivity|].
    rewrite split_join by (auto; discriminate). exact Hf. }
  destruct Ha as [->|[->| ->]].
  - destruct l as [|x r]; [reflexivity|].
    assert (E : to_text {| anchor := []; parts := x :: r |}
                = join_slash (x :: r)) by reflexivity.
    unfold parse. now rewrite E, H0, Hsplit.
  - assert (E : to_text {| anchor := ["/"%char]; parts := l |}
                = "/"%char :: join_slash l) by reflexivity.
    unfold parse. rewrite E.
    cbn [leading_slashes split_slash Ascii.eqb Bool.eqb]. rewrite H0.
    cbn [filter kept]. simpl (text_eqb [] []). cbn [negb andb].
    now rewrite Hsplit.
  - assert (E : to_text {| anchor := ["/"%char; "/"%char]; parts := l |}
                = "/"%char :: "/"%char :: join_slash l) by reflexivity.
    unfold parse. rewrite E.
    cbn [leading_slashes split_slash Ascii.eqb Bool.eqb]. rewrite H0.
    cbn [filter kept]. simpl (text_eqb [] []). cbn [negb andb].
    now rewrite Hsplit.
Qed.

(** Path normalisation is idempotent: the text of a parsed path parses to
    the same path. *)
Lemma parse_idempotent (s : text) : parse (to_text (parse s)) = parse s.
Proof. apply parse_to_text, parse_normal. Qed.

Lemma name_nonempty_kept (p : Path) :
  normal p -> (name p = [] <-> parts p = []).
Proof.
  intros [_ Hl]. unfold name. split; [|now intros ->].
  intros Hn. destruct (parts p) as [|x l] using rev_ind; [reflexivity|].
  rewrite last_last in Hn. subst x.
  apply Forall_app in Hl as [_ Hl]. apply Forall_inv in Hl as [Hk _].
  discriminate.
Qed.

Lemma suffix_of_name (p : Path) (stem ext : text) :
  name p = stem ++ "."%char :: ext ->
  stem <> [] -> ext <> [] -> Forall plain ext ->
  suffix p = "."%char :: ext.
Proof.
  intros Hn Hs He Hp. unfold suffix. rewrite Hn.
  rewrite rfind_dot_ext by assumption.
  rewrite length_app. simpl.
  assert (H1 : (0 <? length stem) = true)
    by (apply Nat.ltb_lt; destruct stem; [congruence|simpl; lia]).
  assert (H2 : (length stem <? length stem + S (length ext) - 1) = true)
    by (apply Nat.ltb_lt; destruct ext; [congruence|simpl; lia]).
  rewrite H1, H2. simpl.
  rewrite skipn_app, Nat.sub_diag, skipn_all. reflexivity.
Qed.

Lemma rfind_dot_bound (s : text) i : rfind_dot s = Some i -> i < length s.
Proof.
  revert i. induction s as [|c s IH]; intros i; simpl; [discriminate|].
  destruct (rfind_dot s) as [j|].
  - intros [= <-]. specialize (IH j eq_refl). lia.
  - destruct (Ascii.eqb c "."%char); [intros [= <-]; lia|discriminate].
Qed.

(** The name that [with_suffix(".tex")] builds: a non-empty stem taken
    from the old name, and [.tex]. *)
Lemma with_suffix_tex (p q : Path) :
  with_suffix p (str ".tex") = Some q ->
  anchor q = anchor p
  /\ removelast (parts q) = removelast (parts p)
  /\ exists stem, stem <> [] /\ name q = stem ++ str ".tex"
                  /\ exists rest, name p = stem ++ rest.
Proof.
  unfold with_suffix.
  destruct (name p) as [|c n] eqn:Hn; [discriminate|].
  intros [= <-]. cbn [anchor parts].
  split; [reflexivity|]. split; [now rewrite removelast_last|].
  unfold name at 1. cbn [parts]. rewrite last_last.
  unfold suffix. rewrite Hn.
  destruct (rfind_dot (c :: n)) as [i|] eqn:Hi.
  - destruct ((0 <? i) && (i <? length (c :: n) - 1)) eqn:Hb.
    + apply andb_true_iff in Hb as [H0 H1].
      apply Nat.ltb_lt in H0, H1.
      destruct (skipn i (c :: n)) as [|d old] eqn:Hsk.
      * exists (c :: n). repeat split; [discriminate|]. exists []. now rewrite app_nil_r.
      * assert (Hlen : length (c :: n) - length (d :: old) = i).
        { rewrite <- Hsk, length_skipn. lia. }
        change (match length (d :: old) with
                | 0 => S (length n)
                | S l => length n - l
                end) with (length (c :: n) - length (d :: old)).
        rewrite Hlen. exists (firstn i (c :: n)). split.
        -- destruct i; [lia|discriminate].
        -- split; [reflexivity|]. exists (skipn i (c :: n)).
           now rewrite firstn_skipn.
    + exists (c :: n). repeat split; [discriminate|]. exists []. now rewrite app_nil_r.
  - exists (c :: n). repeat split; [discriminate|]. exists []. now rewrite app_nil_r.
Qed.

Lemma plain_tex : Forall plain (str "tex").
Proof. repeat constructor; discriminate. Qed.

Lemma with_suffix_normal (p q : Path) :
  normal p -> with_suffix p (str ".tex") = Some q -> normal q.
Proof.
  intros [Ha Hl] Hw.
  destruct (with_suffix_tex p q Hw) as (Hqa & Hqr & stem & Hs & Hqn & rest & Hpn).
  assert (Hparts : parts q = removelast (parts p) ++ [stem ++ str ".tex"]).
  { unfold with_suffix in Hw. destruct (name p); [discriminate|].
    injection Hw as <-. simpl parts in *. unfold name in Hqn. simpl in Hqn.
    rewrite last_last in Hqn. now rewrite Hqn. }
  split; [now rewrite Hqa|]. rewrite Hparts.
  assert (Hp : parts p <> []).
  { intros E. unfold name in Hpn. rewrite E in Hpn. simpl in Hpn.
    destruct stem; [congruence|discriminate]. }
  assert (Hlast : slash_free (name p)).
  { unfold name. rewrite (app_removelast_last [] Hp) in Hl.
    apply Forall_app in Hl as [_ Hl]. now apply Forall_inv in Hl as [_ Hl]. }
  apply Forall_app. split.
  - rewrite (app_removelast_last [] Hp) in Hl.
    now apply Forall_app in Hl as [Hl _].
  - constructor; [|constructor]. split.
    + unfold kept. apply andb_true_iff.
      split; apply negb_true_iff, text_eqb_neq.
      * destruct stem; [congruence|discriminate].
      * destruct stem as [|c [|c' stem]]; discriminate.
    + rewrite Hpn in Hlast. apply Forall_app in Hlast as [Hst _].
      apply Forall_app. split; [exact Hst|].
      repeat constructor; discriminate.
Qed.

(** What [ensure_tex_extension] returns and when it raises. *)
Lemma ensure_tex_extension_cases (path_str : text) :
  match ensure_tex_extension path_str with
  | Ok path =>
      suffix path = str ".tex" /\ name path <> []
      /\ anchor path = anchor (parse path_str)
      /\ removelast (parts path) = removelast (parts (parse path_str))
      /\ parts (parse path_str) <> []
  | Err e => e = ValueError (parse path_str) /\ parts (parse path_str) = []
  end.
Proof.
  unfold ensure_tex_extension.
  pose proof (parse_normal path_str) as Hn.
  destruct (text_eqb (suffix (parse path_str)) (str ".tex")) eqn:E; simpl negb;
    cbv iota.
  - apply text_eqb_eq in E.
    assert (Hname : name (parse path_str) <> []).
    { intros H0. unfold suffix in E. rewrite H0 in E. discriminate. }
    repeat split; auto.
    intros H0. apply Hname. now apply name_nonempty_kept.
  - destruct (with_suffix (parse path_str) (str ".tex")) as [q|] eqn:Hw.
    + destruct (with_suffix_tex _ _ Hw)
        as (Hqa & Hqr & stem & Hs & Hqn & rest & Hpn).
      split; [|split; [|split; [|split]]]; auto.
      * apply (suffix_of_name q stem (str "tex")); auto using plain_tex.
        discriminate.
      * rewrite Hqn. destruct stem; [congruence|discriminate].
      * intros H0. apply (name_nonempty_kept _ Hn) in H0.
        rewrite H0 in Hpn. destruct stem; [congruence|discriminate].
    + split; [reflexivity|]. apply (name_nonempty_kept _ Hn).
      unfold with_suffix in Hw. now destruct (name (parse path_str)).
Qed.

(** X1. Whenever [ensure_tex_extension] returns, the path has the suffix
    [.tex] and a non-empty name, and differs from the parsed argument in
    its last component at most; it raises exactly when the parsed argument
    has no component to carry an extension (as for ["."], ["/"], ["./"]),
    the exception naming that path. *)
Theorem ensure_tex_extension_total (path_str : text) :
  match ensure_tex_extension path_str with
  | Ok path =>
      suffix path = str ".tex" /\ name path <> []
      /\ anchor path = anchor (parse path_str)
      /\ removelast (parts path) = removelast (parts (parse path_str))
      /\ parts (parse path_str) <> []
  | Err e => e = ValueError (parse path_str) /\ parts (parse path_str) = []
  end.
Proof.
  pose proof (ensure_tex_extension_cases path_str) as H.
  destruct (ensure_tex_extension path_str) as [path|e].
  - destruct H as (H1 & H2 & H3 & H4 & H5). repeat split; assumption.
  - destruct H as [H1 H2]. now split.
Qed.

(** X2. [ensure_tex_extension] is idempotent through [str]: the text of a
    path it returned, such as the one a warning shows, normalises to that
    very path. *)
Theorem ensure_tex_extension_idempotent (path_str : text) (path : Path)
  (Hok : ensure_tex_extension path_str = Ok path) :
  ensure_tex_extension (to_text path) = Ok path.
Proof.
  pose proof (ensure_tex_extension_cases path_str) as Ht.
  rewrite Hok in Ht. destruct Ht as (Hsuf & _).
  assert (Hn : normal path).
  { unfold ensure_tex_extension in Hok.
    destruct (negb (text_eqb (suffix (parse path_str)) (str ".tex"))).
    - destruct (with_suffix (parse path_str) (str ".tex")) as [q|] eqn:Hw;
        [|discriminate].
      injection Hok as <-. eapply with_suffix_normal; [|exact Hw].
      apply parse_normal.
    - injection Hok as <-. apply parse_normal. }
  unfold ensure_tex_extension. rewrite (parse_to_text _ Hn), Hsuf.
  now rewrite text_eqb_refl.
Qed.

Lemma ensure_tex_extension_idempotent_witness :
  ensure_tex_extension (str "exercises/01_ex.tex")
  = Ok (parse (str "exercises/01_ex.tex")).
Proof.
  exact (ensure_tex_extension_idempotent (str "exercises//01_ex.old")
           (parse (str "exercises/01_ex.tex")) eq_refl).
Defined.

(** ** The log and the flag *)

Section Keeps.

Variable R : State -> State -> Prop.
Hypothesis R_refl : forall st, R st st.
Hypothesis R_trans : forall a b c, R a b -> R b c -> R a c.

Lemma keeps_ret {A} (a : A) : keeps R (ret a).
Proof. intros st. apply R_refl. Qed.

Lemma keeps_lift {A} (r : result A) : keeps R (lift r).
Proof. intros st. destruct r; apply R_refl. Qed.

Lemma keeps_bind {A B} (c : M A) (k : A -> M B) :
  keeps R c -> (forall a, keeps R (k a)) -> keeps R (bind c k).
Proof.
  intros Hc Hk st. unfold bind. specialize (Hc st).
  destruct (c st) as [a st1|e st1]; [|exact Hc].
  eapply R_trans; [exact Hc|apply Hk].
Qed.

Lemma keeps_sub_pieces callback ps :
  (forall g0 g1, keeps R (callback g0 g1)) ->
  keeps R (sub_pieces callback ps).
Proof.
  intros Hc. induction ps as [|[c|g0 g1] ps IH]; simpl.
  - apply keeps_ret.
  - apply keeps_bind; [exact IH|intros; apply keeps_ret].
  - apply keeps_bind; [apply Hc|]. intros x.
    apply keeps_bind; [exact IH|intros; apply keeps_ret].
Qed.

Lemma keeps_process_once fs :
  (forall g0 g1, keeps R (repl fs g0 g1)) ->
  forall t, keeps R (process_once fs t).
Proof.
  intros Hc t. unfold process_once, replace_exsetinput, replace_exinput, sub_fun.
  apply keeps_bind; [now apply keeps_sub_pieces|]. intros t1.
  apply keeps_bind; [now apply keeps_sub_pieces|]. intros t2.
  apply keeps_ret.
Qed.

Lemma keeps_for_range fs mp n :
  (forall g0 g1, keeps R (repl fs g0 g1)) ->
  keeps R (logging_warning (budget_message mp)) ->
  forall t, keeps R (for_range fs mp n t).
Proof.
  intros Hc Hw. induction n as [|n IH]; intros t; simpl.
  - apply keeps_bind; [exact Hw|intros; apply keeps_ret].
  - apply keeps_bind; [now apply keeps_process_once|]. intros curr.
    destruct (text_eqb curr t); [apply keeps_ret|apply IH].
Qed.

End Keeps.

Lemma extends_refl st : extends st st.
Proof. split; [exists []; now rewrite app_nil_r|auto]. Qed.

Lemma extends_trans a b c : extends a b -> extends b c -> extends a c.
Proof.
  intros [[l1 H1] F1] [[l2 H2] F2]. split; [|auto].
  exists (l1 ++ l2). now rewrite H2, H1, app_assoc.
Qed.

Lemma extends_ret {A} (a : A) : keeps extends (ret a).
Proof. exact (keeps_ret extends extends_refl a). Qed.

Lemma extends_bind {A B} (c : M A) (k : A -> M B) :
  keeps extends c -> (forall a, keeps extends (k a)) -> keeps extends (bind c k).
Proof. exact (keeps_bind extends extends_trans c k). Qed.

Lemma extends_warning msg : keeps extends (logging_warning msg).
Proof. intros st. split; [now exists [msg]|auto]. Qed.

Lemma extends_warn_once : keeps extends _warn_missing_exercises_dir_once.
Proof.
  intros st. rewrite warn_missing_eq. unfold warn_once. simpl.
  destruct (MISSING_DIR_WARNED st) eqn:E; [apply extends_refl|].
  split; [now exists [missing_dir_message]|auto].
Qed.

Lemma extends_load fs arg : keeps extends (load_file_if_exists fs arg).
Proof.
  unfold load_file_if_exists. apply extends_bind.
  - exact (keeps_lift extends extends_refl _).
  - intros path. apply extends_bind.
    + exact (keeps_lift extends extends_refl _).
    + intros found. destruct (negb found).
      * apply extends_bind; [apply extends_warning|intros; apply extends_ret].
      * destruct (read_text fs path); [apply extends_ret|].
        apply extends_bind; [apply extends_warning|intros; apply extends_ret].
Qed.

Lemma extends_repl fs g0 g1 : keeps extends (repl fs g0 g1).
Proof.
  unfold repl. apply extends_bind.
  - exact (keeps_lift extends extends_refl _).
  - intros there. destruct (negb there).
    + apply extends_bind; [apply extends_warn_once|intros; apply extends_ret].
    + apply extends_bind; [apply extends_load|intros; apply extends_ret].
Qed.

(** X3. The log is append-only and the flag is never cleared: whatever
    the file system, the text and the budget, and whether the expansion
    returns or raises, the final log is the initial log with messages
    added at its end, and a flag that was set is still set. *)
Theorem expansion_extends_state
  (fs : filesystem) (input_text : text) (max_passes : Z) (st : State) :
  extends st (final_state (process_with_recursion fs input_text max_passes st)).
Proof.
  unfold process_with_recursion.
  apply (keeps_for_range extends extends_refl extends_trans).
  - apply extends_repl.
  - apply extends_warning.
Qed.

Lemma same_dir_refl st : same_dir_warnings st st.
Proof. now split. Qed.

Lemma same_dir_trans a b c :
  same_dir_warnings a b -> same_dir_warnings b c -> same_dir_warnings a c.
Proof. intros [H1 H2] [H3 H4]. split; congruence. Qed.

Lemma same_dir_ret {A} (a : A) : keeps same_dir_warnings (ret a).
Proof. exact (keeps_ret same_dir_warnings same_dir_refl a). Qed.

Lemma same_dir_bind {A B} (c : M A) (k : A -> M B) :
  keeps same_dir_warnings c -> (forall a, keeps same_dir_warnings (k a)) ->
  keeps same_dir_warnings (bind c k).
Proof. exact (keeps_bind same_dir_warnings same_dir_trans c k). Qed.

Lemma same_dir_warning msg :
  msg <> missing_dir_message -> keeps same_dir_warnings (logging_warning msg).
Proof.
  intros Hne st. split; [reflexivity|].
  unfold missing_dir_warnings. simpl final_state. cbn [log].
  rewrite count_occ_app, (count_occ_cons_neq _ _ Hne), count_occ_nil.
  apply Nat.add_0_r.
Qed.

Lemma same_dir_load fs arg : keeps same_dir_warnings (load_file_if_exists fs arg).
Proof.
  unfold load_file_if_exists. apply same_dir_bind.
  - exact (keeps_lift same_dir_warnings same_dir_refl _).
  - intros path. apply same_dir_bind.
    + exact (keeps_lift same_dir_warnings same_dir_refl _).
    + intros found. destruct (negb found).
      * apply same_dir_bind; [|intros; apply same_dir_ret].
        apply same_dir_warning. discriminate.
      * destruct (read_text fs path); [apply same_dir_ret|].
        apply same_dir_bind; [|intros; apply same_dir_ret].
        apply same_dir_warning. discriminate.
Qed.

Lemma same_dir_repl fs g0 g1 :
  path_exists fs EXERCISES_DIR <> Ok false ->
  keeps same_dir_warnings (repl fs g0 g1).
Proof.
  intros Hd. unfold repl.
  destruct (path_exists fs EXERCISES_DIR) as [[|]|e]; [| |].
  - intros st. unfold bind at 1. simpl lift. simpl negb. cbv iota.
    revert st. apply same_dir_bind;
      [apply same_dir_load|intros; apply same_dir_ret].
  - now contradiction Hd.
  - intros st. apply same_dir_refl.
Qed.

(** X4. The missing-directory warning over a whole expansion, for every
    file system, text, budget and initial state, whether the expansion
    returns or raises: it is logged at most once, not at all when the flag
    is already set, and when the base directory exists it is not logged
    and the flag is left as it was. *)
Theorem missing_dir_warning_at_most_once
  (fs : filesystem) (input_text : text) (max_passes : Z) (st : State) :
  let st' := final_state (process_with_recursion fs input_text max_passes st) in
  missing_dir_warnings st'
  <= missing_dir_warnings st + (if MISSING_DIR_WARNED st then 0 else 1)
  /\ (path_exists fs EXERCISES_DIR = Ok true ->
      MISSING_DIR_WARNED st' = MISSING_DIR_WARNED st
      /\ missing_dir_warnings st' = missing_dir_warnings st).
Proof.
  intros st'.
  assert (Hex : path_exists fs EXERCISES_DIR <> Ok false ->
                same_dir_warnings st st').
  { intros Hd. unfold st', process_with_recursion.
    apply (keeps_for_range same_dir_warnings same_dir_refl same_dir_trans).
    - intros g0 g1. now apply same_dir_repl.
    - apply same_dir_warning, budget_message_other. }
  split; [|intros Hd; apply Hex; rewrite Hd; discriminate].
  destruct (path_exists fs EXERCISES_DIR) as [[|]|e] eqn:Hd.
  - destruct Hex as [_ ->]; [discriminate|lia].
  - unfold st', process_with_recursion.
    destruct (for_range_no_dir fs max_passes (Z.to_nat max_passes)
                input_text st Hd)
      as (out & s' & s1 & k & -> & _ & _ & Hs1 & Hs').
    simpl final_state.
    assert (H1 : missing_dir_warnings s1
                 <= missing_dir_warnings st
                    + (if MISSING_DIR_WARNED st then 0 else 1)).
    { destruct Hs1 as [->| ->];
        [lia|rewrite missing_dir_warnings_warn_once; lia]. }
    destruct Hs' as [->| ->]; [exact H1|].
    now rewrite missing_dir_warnings_budget.
  - destruct Hex as [_ ->]; [discriminate|lia].
Qed.

(** X5. [_warn_missing_exercises_dir_once] called any number of times, at
    least once, does what one call does: the flag is set, and the warning
    is logged once if the flag was not set and not at all if it was. *)
Theorem warn_once_any_number_of_calls (n : nat) (st : State) :
  repeat_call _warn_missing_exercises_dir_once (S n) st
  = Returned tt
      (if MISSING_DIR_WARNED st then st
       else {| MISSING_DIR_WARNED := true;
               log := log st ++ [missing_dir_message] |}).
Proof.
  change (repeat_call _warn_missing_exercises_dir_once (S n) st
          = Returned tt (warn_once st)).
  revert st. induction n as [|n IH]; intros st.
  - simpl. unfold bind. now rewrite warn_missing_eq.
  - change (repeat_call _warn_missing_exercises_dir_once (S (S n)) st)
      with (bind _warn_missing_exercises_dir_once
              (fun _ => repeat_call _warn_missing_exercises_dir_once (S n)) st).
    unfold bind at 1. rewrite warn_missing_eq, IH. now rewrite warn_once_idem.
Qed.

(** ** Occurrences and warnings *)

Lemma load_logs_at_most_one fs arg st :
  length (log (final_state (load_file_if_exists fs arg st)))
  <= length (log st) + 1.
Proof.
  unfold load_file_if_exists, bind, lift.
  destruct (ensure_tex_extension arg) as [path|e]; [|simpl; lia].
  destruct (is_file fs path) as [[|]|e]; [| |simpl; lia].
  - destruct (read_text fs path); simpl; [lia|].
    rewrite length_app. simpl. lia.
  - simpl. rewrite length_app. simpl. lia.
Qed.

Lemma repl_logs_at_most_one fs g0 g1 st :
  length (log (final_state (repl fs g0 g1 st))) <= length (log st) + 1.
Proof.
  destruct (path_exists fs EXERCISES_DIR) as [[|]|e] eqn:Hd.
  - rewrite repl_with_dir by exact Hd.
    pose proof (load_logs_at_most_one fs g1 st) as H.
    destruct (load_file_if_exists fs g1 st) as [[c|] s|e s]; exact H.
  - rewrite repl_no_dir by exact Hd. unfold warn_once. simpl.
    destruct (MISSING_DIR_WARNED st); simpl; [lia|].
    rewrite length_app. simpl. lia.
  - rewrite (repl_dir_raises fs g0 g1 e st Hd). simpl. lia.
Qed.

Lemma sub_pieces_logs fs ps st :
  length (log (final_state (sub_pieces (repl fs) ps st)))
  <= length (log st) + length (hits ps).
Proof.
  revert st. induction ps as [|[c|g0 g1] ps IH]; intros st; simpl.
  - lia.
  - unfold bind. specialize (IH st).
    destruct (sub_pieces (repl fs) ps st); exact IH.
  - unfold bind. pose proof (repl_logs_at_most_one fs g0 g1 st) as H1.
    destruct (repl fs g0 g1 st) as [x st1|e st1]; simpl in H1; [|simpl; lia].
    specialize (IH st1).
    destruct (sub_pieces (repl fs) ps st1); simpl in *; lia.
Qed.

(** X6. A content-input substitution logs at most one warning for each
    occurrence it finds, so none on a text without occurrence, whether it
    returns or raises. *)
Theorem content_input_warnings_bounded
  (fs : filesystem) (t : text) (st : State) :
  length (log (final_state (replace_exsetinput fs t st)))
  <= length (log st) + length (finditer exsetinput_pattern t)
  /\ length (log (final_state (replace_exinput fs t st)))
     <= length (log st) + length (finditer exinput_pattern t).
Proof. split; apply sub_pieces_logs. Qed.

Lemma sub_pieces_raises fs ps st :
  (exists g0 g1 e, In (g0, g1) (hits ps) /\ resolution_raises fs g1 e) ->
  exists e st', sub_pieces (repl fs) ps st = Raised e st'.
Proof.
  revert st.
  induction ps as [|[c|g0 g1] ps IH]; intros st (h0 & h1 & e & Hin & Hr).
  - destruct Hin.
  - simpl in Hin. simpl. unfold bind.
    destruct (IH st) as (e' & st' & ->); [now exists h0, h1, e|]. eauto.
  - simpl. unfold bind. simpl in Hin. destruct Hin as [Heq|Hin].
    + injection Heq as <- <-.
      rewrite (repl_raises_as_resolution fs g0 g1 e st Hr). eauto.
    + destruct (repl fs g0 g1 st) as [x st1|e1 st1]; [|eauto].
      destruct (IH st1) as (e' & st' & ->); [now exists h0, h1, e|]. eauto.
Qed.

Lemma sub_fun_raises_iff fs m t st :
  (exists e st', sub_fun m (repl fs) t st = Raised e st')
  <-> exists g0 g1 e,
        In (g0, g1) (finditer m t) /\ resolution_raises fs g1 e.
Proof.
  unfold sub_fun, finditer. split.
  - intros (e & st' & H).
    pose proof (sub_pieces_resolved fs (scan m t) st) as Hr.
    rewrite H in Hr. destruct Hr as (h0 & h1 & Hin & He).
    now exists h0, h1, e.
  - apply sub_pieces_raises.
Qed.

(** What makes the resolution of an argument raise, read off the file
    system: the entry of the base directory cannot be examined; or the
    base directory is there (an entry of any kind) and either the argument
    is a path without any component, or the entry of the file name cannot
    be examined. *)
Lemma resolution_raises_cases fs arg e :
  resolution_raises fs arg e
  <-> (exists reason, fs (to_text EXERCISES_DIR) = Inaccessible reason
                      /\ e = OSError reason)
      \/ (path_exists fs EXERCISES_DIR = Ok true
          /\ (parts (parse arg) = [] /\ e = ValueError (parse arg)
              \/ exists path reason,
                   ensure_tex_extension arg = Ok path
                   /\ fs (to_text path) = Inaccessible reason
                   /\ e = OSError reason)).
Proof.
  unfold resolution_raises. split.
  - intros [Hd|(Hd & [Ha|(path & Ha & Hf)])].
    + left. unfold path_exists in Hd.
      destruct (fs (to_text EXERCISES_DIR)) as [| |r|reason];
        try discriminate.
      exists reason. split; [reflexivity|congruence].
    + right. split; [exact Hd|]. left.
      pose proof (ensure_tex_extension_cases arg) as Ht. rewrite Ha in Ht.
      destruct Ht as [-> Hp]. now split.
    + right. split; [exact Hd|]. right. unfold is_file in Hf.
      destruct (fs (to_text path)) as [| |r|reason] eqn:Hfs;
        try discriminate.
      exists path, reason. split; [exact Ha|]. split; [exact Hfs|congruence].
  - intros [(reason & Hd & ->)|(Hd & [[Hp ->]|(path & reason & Ha & Hf & ->)])].
    + left. unfold path_exists. now rewrite Hd.
    + right. split; [exact Hd|]. left.
      pose proof (ensure_tex_extension_cases arg) as Ht.
      destruct (ensure_tex_extension arg) as [path|e'].
      * destruct Ht as (_ & _ & _ & _ & Hne). contradiction.
      * now destruct Ht as [-> _].
    + right. split; [exact Hd|]. right. exists path. split; [exact Ha|].
      unfold is_file. now rewrite Hf.
Qed.

(** X7. A content-input substitution raises exactly when the resolution
    of the argument of some occurrence raises, and returns in every other
    case.  The resolution of an argument raises with the [OSError] of
    [Path.exists] when the entry of the base directory cannot be
    examined; and, the base directory being there, with the [ValueError]
    of [Path.with_suffix] when the argument is a path without any
    component, such as [\exinput{.}] or [\exinput{/}], or with the
    [OSError] of [Path.is_file] when the entry of the file name cannot be
    examined (a name too long, a directory that may not be searched). *)
Theorem content_input_raises_iff
  (fs : filesystem) (t : text) (st : State) :
  ((exists e st', replace_exsetinput fs t st = Raised e st')
   <-> exists g0 g1 e,
         In (g0, g1) (finditer exsetinput_pattern t)
         /\ ((exists reason,
                fs (to_text EXERCISES_DIR) = Inaccessible reason
                /\ e = OSError reason)
             \/ (path_exists fs EXERCISES_DIR = Ok true
                 /\ (parts (parse g1) = [] /\ e = ValueError (parse g1)
                     \/ exists path reason,
                          ensure_tex_extension g1 = Ok path
                          /\ fs (to_text path) = Inaccessible reason
                          /\ e = OSError reason))))
  /\ ((exists e st', replace_exinput fs t st = Raised e st')
      <-> exists g0 g1 e,
            In (g0, g1) (finditer exinput_pattern t)
            /\ ((exists reason,
                   fs (to_text EXERCISES_DIR) = Inaccessible reason
                   /\ e = OSError reason)
                \/ (path_exists fs EXERCISES_DIR = Ok true
                    /\ (parts (parse g1) = [] /\ e = ValueError (parse g1)
                        \/ exists path reason,
                             ensure_tex_extension g1 = Ok path
                             /\ fs (to_text path) = Inaccessible reason
                             /\ e = OSError reason)))).
Proof.
  split.
  - unfold replace_exsetinput. rewrite sub_fun_raises_iff.
    split; intros (g0 & g1 & e & Hin & H); exists g0, g1, e;
      (split; [exact Hin|now apply resolution_raises_cases]).
  - unfold replace_exinput. rewrite sub_fun_raises_iff.
    split; intros (g0 & g1 & e & Hin & H); exists g0, g1, e;
      (split; [exact Hin|now apply resolution_raises_cases]).
Qed.

Example exinput_dot_raises :
  process_with_recursion (fs_of [("exercises", Directory)]%string)
    (str "\exinput{nope} \exinput{.}") 10 initial_state
  = Raised (ValueError (parse (str ".")))
      {| MISSING_DIR_WARNED := false; log := [str "Missing file: nope.tex"] |}.
Proof. reflexivity. Qed.

Example exinput_inaccessible_raises :
  process_with_recursion
    (fs_of [("exercises", Directory);
            ("locked/a.tex", Inaccessible (str "Permission denied"))]%string)
    (str "\exinput{nope} \exinput{locked/a}") 10 initial_state
  = Raised (OSError (str "Permission denied"))
      {| MISSING_DIR_WARNED := false; log := [str "Missing file: nope.tex"] |}.
Proof. reflexivity. Qed.

(** ** The budget *)

(** X8. With a budget of zero or less no pass is run: the input is
    returned as it is, no file is looked up, and the budget warning is
    logged all the same, even for a text without any directive. *)
Theorem expansion_without_budget
  (fs : filesystem) (input_text : text) (max_passes : Z) (st : State)
  (Hbudget : (max_passes <= 0)%Z) :
  process_with_recursion fs input_text max_passes st
  = Returned input_text
      {| MISSING_DIR_WARNED := MISSING_DIR_WARNED st;
         log := log st ++ [budget_message max_passes] |}.
Proof.
  unfold process_with_recursion.
  replace (Z.to_nat max_passes) with 0 by lia. reflexivity.
Qed.

Lemma expansion_without_budget_witness :
  process_with_recursion (fs_of [("exercises", Directory)]%string)
    (str "no directive here") (-1) initial_state
  = Returned (str "no directive here")
      {| MISSING_DIR_WARNED := false;
         log := [str "Reached max replacement passes (-1). Some nested directives may remain."] |}.
Proof.
  apply (expansion_without_budget (fs_of [("exercises", Directory)]%string)
           (str "no directive here") (-1) initial_state).
  discriminate.
Defined.

Lemma for_range_fixed_point fs mp k :
  forall n t st out st_k st',
    passes fs k t st = Returned out st_k ->
    all_changed fs k t st ->
    process_once fs out st_k = Returned out st' ->
    k < n ->
    for_range fs mp n t st = Returned out st'.
Proof.
  induction k as [|k IH]; intros n t st out st_k st' Hp Hc Hfix Hk.
  - injection Hp as <- <-.
    destruct n as [|n]; [lia|].
    rewrite for_range_S, Hfix. now rewrite text_eqb_refl.
  - destruct n as [|n]; [lia|].
    rewrite passes_S in Hp. simpl in Hc. rewrite for_range_S.
    destruct (process_once fs t st) as [t1 st1|e st1]; [|discriminate].
    destruct Hc as [Hne Hc].
    apply text_eqb_neq in Hne. rewrite Hne.
    apply (IH n t1 st1 out st_k st'); auto. lia.
Qed.

(** X9. The result does not depend on the budget once the budget exceeds
    the number of passes that change the text: when the first [k] passes
    each change the text and the next pass returns its input, every budget
    above [k] returns that text with the state of that pass, so without
    budget warning. *)
Theorem expansion_budget_irrelevant_beyond_fixed_point
  (fs : filesystem) (input_text : text) (st : State)
  (k : nat) (out : text) (st_k st' : State) (max_passes : Z)
  (Hpasses : passes fs k input_text st = Returned out st_k)
  (Hchanged : all_changed fs k input_text st)
  (Hfixed : process_once fs out st_k = Returned out st')
  (Hbudget : k < Z.to_nat max_passes) :
  process_with_recursion fs input_text max_passes st = Returned out st'.
Proof.
  unfold process_with_recursion.
  now apply (for_range_fixed_point fs max_passes k _ _ _ out st_k st').
Qed.

Lemma expansion_budget_irrelevant_beyond_fixed_point_witness :
  let fs := fs_of [("exercises", Directory);
                   ("a.tex", file "A \exinput{b}"); ("b.tex", file "B")]%string in
  process_with_recursion fs (str "\exinput{a}") 1000 initial_state
  = Returned (str "A B") initial_state.
Proof.
  intros fs.
  apply (expansion_budget_irrelevant_beyond_fixed_point fs (str "\exinput{a}")
           initial_state 2 (str "A B") initial_state initial_state 1000).
  - reflexivity.
  - simpl. repeat split; discriminate.
  - reflexivity.
  - lia.
Defined.

(** X10. A text in which none of the five patterns matches anywhere is a
    fixed point: with a budget of at least one pass the expansion returns
    it unchanged after the first pass, logs nothing and leaves the flag,
    whatever the file system holds. *)
Theorem expansion_of_plain_text
  (fs : filesystem) (t : text) (max_passes : Z) (st : State)
  (Hset : finditer exsetinput_pattern t = [])
  (Hin : finditer exinput_pattern t = [])
  (Hconcepts : finditer printconcepts t = [])
  (Hproblems : finditer printproblems t = [])
  (Hreview : finditer printreview t = [])
  (Hbudget : (1 <= max_passes)%Z) :
  process_once fs t st = Returned t st
  /\ process_with_recursion fs t max_passes st = Returned t st.
Proof.
  assert (Hpass : process_once fs t st = Returned t st).
  { unfold process_once, bind, replace_exsetinput, replace_exinput.
    rewrite (sub_fun_no_match _ _ _ _ exsetinput_sound Hset).
    rewrite (sub_fun_no_match _ _ _ _ exinput_sound Hin).
    unfold ret. now rewrite replace_print_tokens_no_match. }
  split; [exact Hpass|].
  unfold process_with_recursion.
  apply (for_range_fixed_point fs max_passes 0 _ t st t st st);
    [reflexivity|exact I|exact Hpass|lia].
Qed.

Lemma expansion_of_plain_text_witness :
  let t := str "\section{Limits} See \exinput{} and \printreviews." in
  process_once (fs_of []) t initial_state = Returned t initial_state
  /\ process_with_recursion (fs_of []) t 10 initial_state
     = Returned t initial_state.
Proof.
  intros t.
  apply (expansion_of_plain_text (fs_of []) t 10 initial_state);
    try reflexivity.
  discriminate.
Defined.

(** ** The label step applied twice *)

Lemma free_finditer m t : free m t -> finditer m t = [].
Proof.
  unfold finditer. induction t as [|c t IH]; intros [Hm Ht]; [reflexivity|].
  rewrite scan_lit by exact Hm. simpl. now apply IH.
Qed.

Lemma free_skip m a b : free m (a ++ b) -> free m b.
Proof. induction a as [|c a IH]; [auto|]. intros [_ H]. now apply IH. Qed.

Lemma free_lits m a b :
  backslash_headed m -> no_backslash a -> free m b -> free m (a ++ b).
Proof.
  intros Hm Ha Hb. induction Ha as [|c a Hc _ IH]; [exact Hb|].
  split; [now apply headed_none|exact IH].
Qed.

Lemma compatible_skip m1 m2 a b : compatible m1 m2 (a ++ b) -> compatible m1 m2 b.
Proof. induction a as [|c a IH]; [auto|]. intros [_ H]. now apply IH. Qed.

Lemma compatible_self m t : compatible m m t.
Proof. induction t as [|c t IH]; split; auto. Qed.

Lemma compatible_free m1 m2 t : free m1 t -> compatible m1 m2 t.
Proof.
  induction t as [|c t IH]; intros [Hm Ht]; split; auto.
Qed.

(** A text up to its first backslash. *)
Lemma first_backslash (s : text) :
  exists u w, s = u ++ w /\ no_backslash u
              /\ (w = [] \/ exists w', w = backslash :: w').
Proof.
  induction s as [|c s (u & w & -> & Hu & Hw)].
  - exists [], []. repeat split; [constructor|now left].
  - destruct (ascii_dec c backslash) as [->|Hc].
    + exists [], (backslash :: u ++ w). repeat split; [constructor|].
      right. now eexists.
    + exists (c :: u), w. repeat split; [now constructor|exact Hw].
Qed.

(** What it takes for a token pattern to match. *)
Lemma token_match_inv body s :
  is_word (last (backslash :: body) " "%char) = true ->
  match_token (backslash :: body) s <> None ->
  exists r, s = (backslash :: body) ++ r /\ is_word_opt (hd_error r) = false.
Proof.
  intros Hw Hm. unfold match_token in Hm.
  destruct (strip_prefix (backslash :: body) s) as [r|] eqn:Hs; [|congruence].
  apply strip_prefix_Some in Hs. exists r. split; [exact Hs|].
  rewrite token_boundary in Hm by exact Hw.
  destruct (is_word_opt (hd_error r)); [simpl in Hm; congruence|reflexivity].
Qed.

Section LabelAfterLabel.

(** Two tokens, which may be the same, and the label of the second: the
    label starts with a word character that is not in the body of the
    first token. *)
Variables body1 body2 : text.
Variable first : ascii.
Variable label_rest : text.
Hypothesis body1_plain : no_backslash body1.
Hypothesis body2_plain : no_backslash body2.
Hypothesis body1_word : is_word (last (backslash :: body1) " "%char) = true.
Hypothesis body2_word : is_word (last (backslash :: body2) " "%char) = true.
Hypothesis label_plain : no_backslash (first :: label_rest).
Hypothesis first_word : is_word first = true.
Hypothesis first_fresh : ~ In first body1.

Local Abbreviation m1 := (match_token (backslash :: body1)).
Local Abbreviation m2 := (match_token (backslash :: body2)).
Local Abbreviation out := (sub_str (match_token (backslash :: body2))
                             (first :: label_rest)).

Lemma out_nil : out [] = [].
Proof. reflexivity. Qed.

Lemma out_lit c s : m2 (c :: s) = None -> out (c :: s) = c :: out s.
Proof. intros H. unfold sub_str. now rewrite scan_lit. Qed.

Lemma out_hit s rest :
  m2 s = Some (backslash :: body2, [], rest) ->
  out s = (first :: label_rest) ++ out rest.
Proof.
  intros H. unfold sub_str.
  now rewrite (scan_hit _ (token_sound body2) _ _ _ _ H).
Qed.

Lemma m2_hit_shape s g0 g1 rest :
  m2 s = Some (g0, g1, rest) -> g0 = backslash :: body2 /\ g1 = [].
Proof.
  unfold match_token. destruct (strip_prefix (backslash :: body2) s);
    [|discriminate].
  destruct (word_boundary _ _); [|discriminate]. now intros [= <- <- _].
Qed.

Lemma out_plain u w : no_backslash u -> out (u ++ w) = u ++ out w.
Proof.
  intros Hu. apply quiet_sub_str, quiet_no_backslash; [|exact Hu].
  apply token_headed.
Qed.

(** The output for a text that starts with a backslash starts with that
    backslash or with the first character of the label. *)
Lemma out_head w' :
  (exists r, out (backslash :: w') = backslash :: r)
  \/ (exists r, out (backslash :: w') = first :: r).
Proof.
  destruct (m2 (backslash :: w')) as [[[g0 g1] rest]|] eqn:Hm.
  - destruct (m2_hit_shape _ _ _ _ Hm) as [-> ->].
    right. rewrite (out_hit _ _ Hm). simpl. now eexists.
  - left. rewrite (out_lit _ _ Hm). now eexists.
Qed.

Lemma first_not_backslash : first <> backslash.
Proof. intros ->. discriminate first_word. Qed.

(** Where the first pattern finds nothing in the text, it finds nothing in
    the output either. *)
Lemma no_new_match s :
  m1 (backslash :: s) = None -> m1 (backslash :: out s) = None.
Proof.
  intros Hnone.
  destruct (m1 (backslash :: out s)) as [[[g0 g1] rest]|] eqn:Hm;
    [|reflexivity].
  exfalso.
  destruct (token_match_inv body1 (backslash :: out s) body1_word)
    as (r & Hr & Hb); [congruence|].
  injection Hr as Hr.
  destruct (first_backslash s) as (u & w & -> & Hu & Hw).
  rewrite out_plain in Hr by exact Hu.
  assert (Hw0 : is_word_opt (hd_error w) = false).
  { destruct Hw as [->|(w' & ->)]; reflexivity. }
  assert (Hmatch : forall l, u = body1 ++ l ->
            is_word_opt (hd_error (l ++ w)) = false -> False).
  { intros l -> Hl.
    pose proof (token_at body1 body1_word (l ++ w) Hl) as Hat.
    simpl app in Hat. rewrite <- app_assoc in Hnone. congruence. }
  apply app_eq_app in Hr as [l [[H1 H2]|[H1 H2]]].
  - (* the body ends inside [u] or at its end *)
    apply (Hmatch l H1). destruct l as [|c l].
    + simpl. exact Hw0.
    + simpl. rewrite H2 in Hb. exact Hb.
  - (* the body goes on behind [u] *)
    destruct l as [|c l].
    + rewrite app_nil_r in H1. apply (Hmatch [] ltac:(now rewrite app_nil_r)).
      exact Hw0.
    + assert (Hc : In c body1) by (rewrite H1; apply in_or_app; right; now left).
      assert (Hcb : c <> backslash).
      { pose proof body1_plain as Hp. unfold no_backslash in Hp.
        rewrite Forall_forall in Hp. now apply Hp. }
      destruct Hw as [->|(w' & ->)]; [discriminate H2|].
      destruct (out_head w') as [(r' & Ho)|(r' & Ho)];
        rewrite Ho in H2; injection H2 as <- _; [congruence|contradiction].
Qed.

Lemma m1_nil : m1 [] = None.
Proof. reflexivity. Qed.

(** The output holds no match of the first pattern, when the first pattern
    matches in the text only where the second does. *)
Lemma free_after_sub t : compatible m1 m2 t -> free m1 (out t).
Proof.
  pattern t. apply (scan_ind m2 (token_sound body2)); clear t.
  - intros _. split; [exact m1_nil|exact I].
  - intros c s Hnone IH [Hc Hs].
    rewrite (out_lit _ _ Hnone). split; [|now apply IH].
    destruct (ascii_dec c backslash) as [->|Hne].
    + apply no_new_match. now apply Hc.
    + apply headed_none; [apply token_headed|exact Hne].
  - intros s g0 g1 rest Hsome IH Hc.
    destruct (m2_hit_shape _ _ _ _ Hsome) as [-> ->].
    rewrite (out_hit _ _ Hsome).
    apply free_lits; [apply token_headed|exact label_plain|].
    apply IH.
    destruct (token_sound body2 _ _ _ _ Hsome) as [-> _].
    now apply compatible_skip in Hc.
Qed.

End LabelAfterLabel.

Lemma label_bodies tok label :
  In (tok, label) label_table ->
  exists body first label_rest,
    tok = backslash :: body /\ label = first :: label_rest
    /\ no_backslash body
    /\ is_word (last (backslash :: body) " "%char) = true
    /\ no_backslash (first :: label_rest)
    /\ is_word first = true
    /\ forall tok' label' body',
        In (tok', label') label_table -> tok' = backslash :: body' ->
        ~ In first body'.
Proof.
  intros H. simpl in H.
  destruct H as [[= <- <-]|[[= <- <-]|[[= <- <-]|[]]]];
    eexists; eexists; eexists;
    (split; [reflexivity|]); (split; [reflexivity|]);
    (split; [repeat constructor; discriminate|]);
    (split; [reflexivity|]);
    (split; [repeat constructor; discriminate|]);
    (split; [reflexivity|]);
    intros tok' label' body' H' E; simpl in H';
    destruct H' as [[= <- _]|[[= <- _]|[[= <- _]|[]]]];
    injection E as <-; simpl; intuition discriminate.
Qed.

(** After the substitution of one token, no occurrence of that token is
    left that the pattern would match. *)
Lemma label_step_free_self tok label t :
  In (tok, label) label_table ->
  free (match_token tok) (label_step t (tok, label)).
Proof.
  intros H.
  destruct (label_bodies _ _ H)
    as (body & c & l & -> & -> & Hb & Hw & Hl & Hc & Hfresh).
  unfold label_step. simpl fst. simpl snd.
  apply (free_after_sub body body c l); auto.
  - exact (Hfresh _ _ body H eq_refl).
  - apply compatible_self.
Qed.

(** The substitution of one token creates no match of another. *)
Lemma label_step_free_other tok label tok' label' t :
  In (tok, label) label_table -> In (tok', label') label_table ->
  free (match_token tok') t ->
  free (match_token tok') (label_step t (tok, label)).
Proof.
  intros H H' Hfree.
  destruct (label_bodies _ _ H)
    as (body & c & l & -> & -> & Hb & Hw & Hl & Hc & Hfresh).
  destruct (label_bodies _ _ H')
    as (body' & c' & l' & -> & -> & Hb' & Hw' & _ & _ & _).
  unfold label_step. simpl fst. simpl snd.
  apply (free_after_sub body' body c l); auto.
  - exact (Hfresh _ _ body' H' eq_refl).
  - now apply compatible_free.
Qed.

Lemma label_table_members :
  In (str "\printconcepts", str "Terms and Concepts") label_table
  /\ In (str "\printproblems", str "Problems") label_table
  /\ In (str "\printreview", str "Review") label_table.
Proof. simpl. tauto. Qed.

Lemma replace_print_tokens_free t :
  free printconcepts (replace_print_tokens t)
  /\ free printproblems (replace_print_tokens t)
  /\ free printreview (replace_print_tokens t).
Proof.
  destruct label_table_members as (Hc & Hp & Hr).
  change (replace_print_tokens t)
    with (label_step
            (label_step
               (label_step t (str "\printconcepts", str "Terms and Concepts"))
               (str "\printproblems", str "Problems"))
            (str "\printreview", str "Review")).
  split; [|split].
  - apply (label_step_free_other _ _ _ _ _ Hr Hc).
    apply (label_step_free_other _ _ _ _ _ Hp Hc).
    now apply label_step_free_self.
  - apply (label_step_free_other _ _ _ _ _ Hr Hp).
    now apply label_step_free_self.
  - now apply label_step_free_self.
Qed.

Lemma replace_print_tokens_twice t :
  replace_print_tokens (replace_print_tokens t) = replace_print_tokens t.
Proof.
  destruct (replace_print_tokens_free t) as (Hc & Hp & Hr).
  apply replace_print_tokens_no_match; now apply free_finditer.
Qed.

(** X11. The label step is idempotent: in its output none of the three
    patterns matches any more, at any position, so a second application
    returns the output of the first, whatever the text. *)
Theorem replace_print_tokens_idempotent (t : text) :
  finditer printconcepts (replace_print_tokens t) = []
  /\ finditer printproblems (replace_print_tokens t) = []
  /\ finditer printreview (replace_print_tokens t) = []
  /\ replace_print_tokens (replace_print_tokens t) = replace_print_tokens t.
Proof.
  destruct (replace_print_tokens_free t) as (Hc & Hp & Hr).
  repeat split; try (now apply free_finditer).
  apply replace_print_tokens_twice.
Qed.

(** X12. Without base directory and with a budget of two passes or more,
    the expansion returns the text after one label step, whatever the
    text: the second pass at the latest is a fixed point.  No budget
    warning is logged; the state is the initial one, or the initial one
    after the missing-directory warning. *)
Theorem expansion_without_base_directory
  (fs : filesystem) (t : text) (max_passes : Z) (st : State)
  (Hdir : path_exists fs EXERCISES_DIR = Ok false)
  (Hbudget : (2 <= max_passes)%Z) :
  exists st',
    process_with_recursion fs t max_passes st
    = Returned (replace_print_tokens t) st'
    /\ (st' = st
        \/ st' = {| MISSING_DIR_WARNED := true;
                    log := log st ++ [missing_dir_message] |}
           /\ MISSING_DIR_WARNED st = false).
Proof.
  assert (Hst : forall s, s = st \/ s = warn_once st ->
            s = st \/ s = {| MISSING_DIR_WARNED := true;
                             log := log st ++ [missing_dir_message] |}
                      /\ MISSING_DIR_WARNED st = false).
  { intros s [->| ->]; [now left|]. unfold warn_once.
    destruct (MISSING_DIR_WARNED st); [now left|now right]. }
  unfold process_with_recursion.
  destruct (Z.to_nat max_passes) as [|[|n]] eqn:En; try lia.
  rewrite for_range_S.
  destruct (process_once_no_dir fs t st Hdir) as (st1 & -> & H1).
  destruct (text_eqb (replace_print_tokens t) t) eqn:E.
  - exists st1. split; [reflexivity|now apply Hst].
  - rewrite for_range_S.
    destruct (process_once_no_dir fs (replace_print_tokens t) st1 Hdir)
      as (st2 & -> & H2).
    rewrite replace_print_tokens_twice, text_eqb_refl.
    exists st2. split; [reflexivity|]. apply Hst.
    destruct H1 as [->| ->], H2 as [->| ->]; rewrite ?warn_once_idem; auto.
Qed.

Lemma expansion_without_base_directory_witness :
  exists st',
    process_with_recursion (fs_of []) (str "\exinput{a} \printreview") 10
      initial_state
    = Returned (str "\exinput{a} Review") st'
    /\ (st' = initial_state
        \/ st' = {| MISSING_DIR_WARNED := true;
                    log := [str "Missing directory: exercises"] |}
           /\ MISSING_DIR_WARNED initial_state = false).
Proof.
  apply (expansion_without_base_directory (fs_of [])
           (str "\exinput{a} \printreview") 10 initial_state).
  - reflexivity.
  - discriminate.
Defined.

(** ** Reading the pasted text *)

Lemma read_lines_all ls stop rest acc :
  Forall (fun l => l <> []) ls ->
  stop = Line [] \/ stop = Eof ->
  read_lines (map Line ls ++ stop :: rest) acc = (Some (acc ++ ls), rest).
Proof.
  intros Hls Hstop. revert acc.
  induction Hls as [|l ls Hl _ IH]; intros acc; simpl.
  - rewrite app_nil_r. now destruct Hstop as [->| ->].
  - apply text_eqb_neq in Hl. rewrite Hl, IH, <- app_assoc. reflexivity.
Qed.

Lemma read_lines_end ls acc :
  Forall (fun l => l <> []) ls ->
  read_lines (map Line ls) acc = (Some (acc ++ ls), []).
Proof.
  intros Hls. revert acc.
  induction Hls as [|l ls Hl _ IH]; intros acc; simpl.
  - now rewrite app_nil_r.
  - apply text_eqb_neq in Hl. rewrite Hl, IH, <- app_assoc. reflexivity.
Qed.

Lemma read_lines_interrupt ls rest acc :
  Forall (fun l => l <> []) ls ->
  read_lines (map Line ls ++ Interrupt :: rest) acc = (None, rest).
Proof.
  intros Hls. revert acc.
  induction Hls as [|l ls Hl _ IH]; intros acc; simpl; [reflexivity|].
  apply text_eqb_neq in Hl. now rewrite Hl, IH.
Qed.

Lemma joined_lines_flat (ls : list text) :
  joined_lines ls = flat_map (fun l => l ++ [newline]) ls.
Proof.
  unfold joined_lines. destruct ls as [|x r]; [reflexivity|].
  revert x. induction r as [|y r IH]; intros x.
  - simpl. now rewrite app_nil_r.
  - change (join_newline (x :: y :: r))
      with (x ++ newline :: join_newline (y :: r)).
    change (flat_map (fun l => l ++ [newline]) (x :: y :: r))
      with ((x ++ [newline]) ++ flat_map (fun l => l ++ [newline]) (y :: r)).
    rewrite <- IH, <- !app_assoc. reflexivity.
Qed.

(** X13. [read_multiline_until_blank] prints its two lines of prompt,
    reads the lines up to the first blank line or the end of the input,
    and returns them, each followed by a newline (the empty text when
    there is none).  The blank line is consumed; what comes after it,
    such as a second paragraph of the pasted text, is not read. *)
Theorem read_multiline_until_blank_lines
  (prompt : text) (ls : list text) (stop : tty_event)
  (rest : list tty_event) (printed : list text)
  (Hls : Forall (fun l => l <> []) ls)
  (Hstop : stop = Line [] \/ stop = Eof) :
  let shown := printed
               ++ [prompt ++ [newline];
                   str "(Finish by pressing Enter on a blank line.)" ++ [newline]] in
  read_multiline_until_blank prompt
    {| stdin := map Line ls ++ stop :: rest; stdout := printed |}
  = (Done (flat_map (fun l => l ++ [newline]) ls),
     {| stdin := rest; stdout := shown |})
  /\ read_multiline_until_blank prompt
       {| stdin := map Line ls; stdout := printed |}
     = (Done (flat_map (fun l => l ++ [newline]) ls),
        {| stdin := []; stdout := shown |}).
Proof.
  intros shown. unfold read_multiline_until_blank, print. cbn [stdin stdout].
  rewrite (read_lines_all ls stop rest [] Hls Hstop), (read_lines_end ls [] Hls).
  change ([] ++ ls) with ls. rewrite !joined_lines_flat.
  unfold shown. rewrite <- !app_assoc. split; reflexivity.
Qed.

Lemma read_multiline_until_blank_lines_witness :
  read_multiline_until_blank (str "Paste:")
    {| stdin := map Line [str "first paragraph"; str "goes on"]
                ++ Line [] :: [Line (str "second paragraph"); Line []];
       stdout := [] |}
  = (Done (str "first paragraph" ++ [newline] ++ str "goes on" ++ [newline]),
     {| stdin := [Line (str "second paragraph"); Line []];
        stdout := [str "Paste:" ++ [newline];
                   str "(Finish by pressing Enter on a blank line.)" ++ [newline]] |}).
Proof.
  refine (proj1 (read_multiline_until_blank_lines (str "Paste:")
                   [str "first paragraph"; str "goes on"] (Line [])
                   [Line (str "second paragraph"); Line []] [] _ _)).
  - repeat constructor; discriminate.
  - now left.
Defined.

(** X14. Ctrl-C while the text is read: the lines read so far are thrown
    away, "Input cancelled." is printed behind an empty line, and the
    function ends the program with exit code 1. *)
Theorem read_multiline_until_blank_cancelled
  (prompt : text) (ls : list text) (rest : list tty_event)
  (printed : list text)
  (Hls : Forall (fun l => l <> []) ls) :
  read_multiline_until_blank prompt
    {| stdin := map Line ls ++ Interrupt :: rest; stdout := printed |}
  = (SystemExit 1,
     {| stdin := rest;
        stdout := printed
                  ++ [prompt ++ [newline];
                      str "(Finish by pressing Enter on a blank line.)" ++ [newline];
                      newline :: str "Input cancelled." ++ [newline]] |}).
Proof.
  unfold read_multiline_until_blank, print. cbn [stdin stdout].
  rewrite (read_lines_interrupt ls rest [] Hls). cbn [stdin stdout].
  now rewrite <- !app_assoc.
Qed.

Lemma read_multiline_until_blank_cancelled_witness :
  fst (read_multiline_until_blank (str "Paste:")
         {| stdin := map Line [str "half a text"] ++ Interrupt :: [];
            stdout := [] |})
  = SystemExit 1.
Proof.
  rewrite (read_multiline_until_blank_cancelled (str "Paste:")
             [str "half a text"] [] []).
  - reflexivity.
  - repeat constructor; discriminate.
Defined.

(** ** [main]: what happens before anything is written *)

(** X15. Whenever [main] ends through [sys.exit], after a blank file name
    or after Ctrl-C while the text is pasted, the exit code is 1; and
    then, as when the input ends or Ctrl-C is pressed at the prompt for
    the file name, nothing has been written and the expander has not run:
    the file system and the expander's state are as they were, whatever
    the operating system would have done. *)
Theorem main_exit_writes_nothing (os : OS) (w : World) :
  match main os w with
  | (SystemExit code, w') =>
      code = 1%Z /\ files w' = files w /\ globals w' = globals w
  | (Uncaught EOFError, w') | (Uncaught KeyboardInterrupt, w') =>
      files w' = files w /\ globals w' = globals w
  | _ => True
  end.
Proof.
  unfold main. cbn [stdin stdout].
  destruct (stdin (console w)) as [|[typed| |] r]; cbn [files globals]; auto.
  destruct (output_filename typed) as [filename|]; cbn [files globals]; auto.
  unfold read_multiline_until_blank, print. cbn [stdin stdout].
  destruct (read_lines r []) as [[lines|] rest]; cbn [files globals]; auto.
  destruct (write_textfile os (files w) (parse filename) (joined_lines lines))
    as [fs1|e fs']; [|exact I].
  destruct (process_with_recursion fs1 (joined_lines lines) 10 (globals w))
    as [processed st|e st]; [|exact I].
  destruct (write_textfile os fs1 (parse filename) processed) as [fs2|e fs'];
    [|exact I].
  destruct (os_resolve os fs2 (parse filename)); exact I.
Qed.

(** ** The name of the output file *)

Lemma lstrip_head (s : text) :
  lstrip s = [] \/ is_space (hd " "%char (lstrip s)) = false.
Proof.
  induction s as [|c s IH]; simpl; [now left|].
  destruct (is_space c) eqn:E; [exact IH|right; exact E].
Qed.

Lemma lstrip_split (s : text) : exists sp, s = sp ++ lstrip s.
Proof.
  induction s as [|c s [sp IH]]; simpl; [now exists []|].
  destruct (is_space c).
  - exists (c :: sp). simpl. now f_equal.
  - now exists [].
Qed.

Lemma lstrip_fixed (s : text) :
  is_space (hd " "%char s) = false -> lstrip s = s.
Proof. destruct s as [|c s]; simpl; [reflexivity|]. now intros ->. Qed.

Lemma hd_rev_last (s : text) d : hd d (rev s) = last s d.
Proof.
  induction s as [|c s IH] using rev_ind; [reflexivity|].
  now rewrite rev_app_distr, last_last.
Qed.

Lemma strip_of_trimmed (s : text) : trimmed s -> strip s = s.
Proof.
  intros (_ & Hh & Hl). unfold strip.
  rewrite (lstrip_fixed s Hh), lstrip_fixed, rev_involutive; [reflexivity|].
  now rewrite hd_rev_last.
Qed.

Lemma strip_trimmed (s : text) : strip s = [] \/ trimmed (strip s).
Proof.
  unfold strip.
  destruct (lstrip_split (rev (lstrip s))) as [sp Hsp].
  remember (lstrip (rev (lstrip s))) as b eqn:Hb.
  destruct b as [|c b]; [now left|]. right.
  assert (Hlast : is_space (last (rev (c :: b)) " "%char) = false).
  { rewrite <- hd_rev_last, rev_involutive.
    destruct (lstrip_head (rev (lstrip s))) as [H|H];
      rewrite <- Hb in H; [discriminate|exact H]. }
  split; [|split; [|exact Hlast]].
  - intros H. apply (f_equal (@rev ascii)) in H.
    rewrite rev_involutive in H. discriminate.
  - assert (Ha : lstrip s = rev (c :: b) ++ rev sp).
    { rewrite <- rev_app_distr, <- Hsp. now rewrite rev_involutive. }
    destruct (lstrip_head s) as [H|H].
    + rewrite H in Ha. symmetry in Ha. apply app_eq_nil in Ha as [Ha _].
      apply (f_equal (@rev ascii)) in Ha. rewrite rev_involutive in Ha.
      discriminate.
    + rewrite Ha in H. destruct (rev (c :: b)) as [|x r] eqn:E; [|exact H].
      apply (f_equal (@rev ascii)) in E. rewrite rev_involutive in E.
      discriminate.
Qed.

Lemma last_app_nonempty (a b : text) d : b <> [] -> last (a ++ b) d = last b d.
Proof.
  intros Hb. destruct b as [|x b] using rev_ind; [congruence|].
  now rewrite app_assoc, !last_last.
Qed.

Lemma trimmed_txt (s : text) : trimmed s -> trimmed (s ++ str ".txt").
Proof.
  intros (Hne & Hh & _). split; [|split].
  - destruct s; [congruence|discriminate].
  - destruct s; [congruence|exact Hh].
  - now rewrite last_app_nonempty by discriminate.
Qed.

Lemma endswith_app (a b : text) : endswith (a ++ b) b = true.
Proof.
  unfold endswith. rewrite length_app.
  replace (length a + length b - length b) with (length a) by lia.
  rewrite skipn_app, Nat.sub_diag, skipn_all. simpl.
  rewrite text_eqb_refl.
  replace (length b <=? length a + length b) with true; [reflexivity|].
  symmetry. apply Nat.leb_le. lia.
Qed.

Lemma endswith_inv (s suf : text) :
  endswith s suf = true -> exists pre, s = pre ++ suf.
Proof.
  unfold endswith. intros H. apply andb_true_iff in H as [_ H].
  apply text_eqb_eq in H. exists (firstn (length s - length suf) s).
  rewrite <- H at 2. now rewrite firstn_skipn.
Qed.

Lemma lower_app (a b : text) : lower (a ++ b) = lower a ++ lower b.
Proof. apply map_app. Qed.

Lemma output_filename_normal_aux (typed : text) :
  match output_filename typed with
  | None => True
  | Some name => name <> [] /\ endswith (lower name) (str ".txt") = true
  end.
Proof.
  unfold output_filename.
  destruct (strip typed) as [|c f]; [exact I|].
  destruct (endswith (lower (c :: f)) (str ".txt")) eqn:He; simpl negb;
    cbv iota.
  - split; [discriminate|exact He].
  - split; [discriminate|].
    change (c :: f ++ str ".txt") with ((c :: f) ++ str ".txt").
    rewrite lower_app. apply (endswith_app (lower (c :: f)) (str ".txt")).
Qed.

(** X16. The name of the output file.  A line that is blank once
    stripped gives none.  Otherwise the name is the stripped line, with
    [.txt] put behind it unless it already ends in [.txt] in any mix of
    cases; so the name is never empty, always ends in [.txt] when
    lower-cased, and is a name that the same rule leaves as it is. *)
Theorem output_filename_normal (typed : text) :
  match output_filename typed with
  | None => strip typed = []
  | Some name =>
      name <> []
      /\ endswith (lower name) (str ".txt") = true
      /\ (name = strip typed
          \/ name = strip typed ++ str ".txt"
             /\ endswith (lower (strip typed)) (str ".txt") = false)
      /\ output_filename name = Some name
  end.
Proof.
  unfold output_filename at 1.
  destruct (strip_trimmed typed) as [H|Ht]; [now rewrite H|].
  destruct (strip typed) as [|c f] eqn:Hf; [reflexivity|].
  destruct (endswith (lower (c :: f)) (str ".txt")) eqn:He; simpl negb;
    cbv iota.
  - split; [discriminate|]. split; [exact He|]. split; [now left|].
    unfold output_filename. rewrite (strip_of_trimmed _ Ht).
    now rewrite He.
  - split; [discriminate|].
    assert (He' : endswith (lower ((c :: f) ++ str ".txt")) (str ".txt") = true).
    { rewrite lower_app. apply (endswith_app (lower (c :: f)) (str ".txt")). }
    split; [exact He'|]. split; [now right|].
    unfold output_filename.
    rewrite (strip_of_trimmed _ (trimmed_txt _ Ht)).
    change ((c :: f) ++ str ".txt") with (c :: f ++ str ".txt") in *.
    now rewrite He'.
Qed.

(** ** The output file is no included file *)

Lemma join_slash_last (l : list text) :
  l <> [] -> exists pre, join_slash l = pre ++ last l [].
Proof.
  induction l as [|x l IH]; [congruence|]. intros _.
  destruct l as [|y r]; [now exists []|].
  destruct IH as [pre Hpre]; [discriminate|].
  exists (x ++ "/"%char :: pre).
  change (join_slash (x :: y :: r)) with (x ++ "/"%char :: join_slash (y :: r)).
  rewrite Hpre. change (last (x :: y :: r) []) with (last (y :: r) []).
  now rewrite <- app_assoc.
Qed.

Lemma to_text_last (p : Path) d :
  name p <> [] -> last (to_text p) d = last (name p) d.
Proof.
  intros Hn. unfold name in *.
  assert (Hp : parts p <> []) by (intros E; rewrite E in Hn; now apply Hn).
  destruct (join_slash_last (parts p) Hp) as [pre Hpre].
  assert (E : to_text p = (anchor p ++ pre) ++ last (parts p) []).
  { unfold to_text. rewrite <- app_assoc, <- Hpre.
    destruct (anchor p); [|reflexivity].
    destruct (parts p); [congruence|reflexivity]. }
  rewrite E. now apply last_app_nonempty.
Qed.

Lemma split_slash_snoc (s : text) c :
  c <> "/"%char ->
  split_slash (s ++ [c])
  = removelast (split_slash s) ++ [last (split_slash s) [] ++ [c]].
Proof.
  intros Hc. induction s as [|c0 s IH]; simpl.
  - destruct (Ascii.eqb_spec c "/"%char); [contradiction|reflexivity].
  - pose proof (split_slash_nonempty s) as Hne.
    destruct (Ascii.eqb_spec c0 "/"%char) as [->|H0].
    + rewrite IH. destruct (split_slash s) as [|h t]; [congruence|].
      reflexivity.
    + rewrite IH. destruct (split_slash s) as [|h [|h' t]]; [congruence| |];
        reflexivity.
Qed.

Lemma parse_name_last (s : text) c :
  c <> "/"%char -> c <> "."%char ->
  exists x, name (parse (s ++ [c])) = x ++ [c].
Proof.
  intros Hs Hd. unfold parse, name. cbn [parts].
  rewrite split_slash_snoc by exact Hs.
  rewrite filter_app. simpl filter.
  assert (Hk : kept (last (split_slash s) [] ++ [c]) = true).
  { unfold kept. apply andb_true_iff.
    split; apply negb_true_iff, text_eqb_neq.
    - now destruct (last (split_slash s) []).
    - destruct (last (split_slash s) []) as [|y [|y' r]]; simpl;
        congruence. }
  rewrite Hk, last_last. now eexists.
Qed.

Lemma suffix_is_suffix (p : Path) :
  suffix p <> [] -> exists pre, name p = pre ++ suffix p.
Proof.
  unfold suffix. destruct (rfind_dot (name p)) as [i|]; [|congruence].
  destruct ((0 <? i) && (i <? length (name p) - 1)); [|congruence].
  intros _. exists (firstn i (name p)). now rewrite firstn_skipn.
Qed.

(** X17. The file that [main] writes is never a file that a directive
    includes: the path of the output file, which ends in [.txt] in some
    mix of cases, differs as a text from every path that
    [ensure_tex_extension] returns, which ends in [.tex]. *)
Theorem output_file_never_included
  (typed name arg : text) (path : Path)
  (Hname : output_filename typed = Some name)
  (Hpath : ensure_tex_extension arg = Ok path) :
  to_text (parse name) <> to_text path.
Proof.
  pose proof (output_filename_normal_aux typed) as Hn. rewrite Hname in Hn.
  destruct Hn as (_ & Hends).
  apply endswith_inv in Hends as [pre Hpre].
  unfold lower in Hpre. apply map_eq_app in Hpre as (n1 & n2 & -> & _ & H2).
  destruct n2 as [|a [|b [|c [|d [|? ?]]]]]; try discriminate.
  injection H2 as _ _ _ Hd.
  assert (Hds : d <> "/"%char) by (intros ->; discriminate).
  assert (Hdd : d <> "."%char) by (intros ->; discriminate).
  assert (Hdx : d <> "x"%char) by (intros ->; discriminate).
  change (n1 ++ [a; b; c; d]) with (n1 ++ [a; b; c] ++ [d]).
  rewrite app_assoc.
  destruct (parse_name_last (n1 ++ [a; b; c]) d Hds Hdd) as [x Hx].
  pose proof (ensure_tex_extension_cases arg) as Hc. rewrite Hpath in Hc.
  destruct Hc as (Hsuf & Hne & _).
  destruct (suffix_is_suffix path) as [stem Hstem]; [now rewrite Hsuf|].
  rewrite Hsuf in Hstem.
  intros E. apply (f_equal (fun t => last t " "%char)) in E.
  rewrite !to_text_last in E by
    (auto; rewrite Hx; now destruct x).
  rewrite Hx, Hstem, last_last in E.
  change (str ".tex") with (str ".te" ++ ["x"%char]) in E.
  rewrite app_assoc, last_last in E. contradiction.
Qed.

Lemma output_file_never_included_witness :
  output_filename (str "  exercises/notes.tex ")
  = Some (str "exercises/notes.tex.txt")
  /\ ensure_tex_extension (str "exercises/notes")
     = Ok (parse (str "exercises/notes.tex"))
  /\ to_text (parse (str "exercises/notes.tex.txt"))
     <> to_text (parse (str "exercises/notes.tex")).
Proof.
  split; [reflexivity|]. split; [reflexivity|].
  exact (output_file_never_included (str "  exercises/notes.tex ")
           (str "exercises/notes.tex.txt") (str "exercises/notes")
           (parse (str "exercises/notes.tex")) eq_refl eq_refl).
Defined.

(** ** [main]: from the pasted text to the written file *)

(** X18. A run of [main] in which a file name is typed, lines are pasted
    up to a blank line, and the first write succeeds.  The text handed to
    the expander is the pasted lines, each with its newline; it is
    expanded with a budget of 10 passes against the file system as the
    first write left it.  When the expansion returns, its result is
    written over the raw text at the same path and the resolved path is
    printed; when it raises, a [ValueError] or an [OSError], [main] ends
    with that exception and the file system stays as the first write left
    it, the raw text in the output file. *)
Theorem main_writes_expansion
  (os : OS) (w : World) (typed name : text) (ls : list text)
  (rest : list tty_event) (fs1 : filesystem)
  (Hstdin : stdin (console w) = Line typed :: map Line ls ++ Line [] :: rest)
  (Hname : output_filename typed = Some name)
  (Hls : Forall (fun l => l <> []) ls)
  (Hraw : write_textfile os (files w) (parse name)
            (flat_map (fun l => l ++ [newline]) ls) = OsOk fs1) :
  let raw := flat_map (fun l => l ++ [newline]) ls in
  let shown :=
    stdout (console w)
    ++ [str "Enter a filename (without extension is fine): ";
        str "Paste your multiline input text below." ++ [newline];
        str "(Finish by pressing Enter on a blank line.)" ++ [newline]] in
  match process_with_recursion fs1 raw 10 (globals w) with
  | Returned processed st =>
      forall fs2 resolved,
        write_textfile os fs1 (parse name) processed = OsOk fs2 ->
        os_resolve os fs2 (parse name) = OsOk resolved ->
        main os w
        = (Done tt,
           {| console :=
                {| stdin := rest;
                   stdout := shown
                             ++ [newline
                                 :: str "Done. Wrote processed output to: "
                                 ++ resolved ++ [newline]] |};
              files := fs2; globals := st |})
  | Raised e st =>
      main os w
      = (Uncaught (Escaped e),
         {| console := {| stdin := rest; stdout := shown |};
            files := fs1; globals := st |})
  end.
Proof.
  intros raw shown.
  assert (Hread :
    read_multiline_until_blank (str "Paste your multiline input text below.")
      {| stdin := map Line ls ++ Line [] :: rest;
         stdout := stdout (console w)
                   ++ [str "Enter a filename (without extension is fine): "] |}
    = (Done raw, {| stdin := rest; stdout := shown |})).
  { unfold read_multiline_until_blank, print. cbn [stdin stdout].
    rewrite (read_lines_all ls (Line []) rest [] Hls (or_introl eq_refl)).
    change ([] ++ ls) with ls. rewrite joined_lines_flat.
    unfold shown. now rewrite <- !app_assoc. }
  unfold main. cbn [stdin stdout]. rewrite Hstdin, Hname, Hread.
  fold raw in Hraw. rewrite Hraw.
  destruct (process_with_recursion fs1 raw 10 (globals w))
    as [processed st|e st]; [|reflexivity].
  intros fs2 resolved Hw Hr. rewrite Hw, Hr.
  unfold print. cbn [stdin stdout]. reflexivity.
Qed.

Lemma main_writes_expansion_witness :
  let os := {| os_mkdir_parents := fun fs _ => OsOk fs;
               os_write := fun fs p t =>
                 OsOk (fun q => if text_eqb q (to_text p)
                                then Regular (Content t) else fs q);
               os_resolve := fun _ p => OsOk (str "/home/me/" ++ to_text p) |} in
  let w := {| console := {| stdin := Line (str " notes ")
                                     :: map Line [str "\exinput{.}"]
                                     ++ Line [] :: [];
                            stdout := [] |};
              files := fs_of [("exercises", Directory)]%string;
              globals := initial_state |} in
  exists fs1,
    write_textfile os (files w) (parse (str "notes.txt"))
      (str "\exinput{.}" ++ [newline]) = OsOk fs1
    /\ fst (main os w) = Uncaught (Escaped (ValueError (parse (str "."))))
    /\ files (snd (main os w)) = fs1.
Proof.
  intros os w. eexists. split; [reflexivity|].
  pose proof (main_writes_expansion os w (str " notes ") (str "notes.txt")
                [str "\exinput{.}"] [] _ eq_refl eq_refl
                ltac:(repeat constructor; discriminate) eq_refl) as H.
  cbv zeta in H.
  change (process_with_recursion _ _ 10 (globals w))
    with (@Raised text (ValueError (parse (str "."))) initial_state) in H.
  cbv iota in H. rewrite H. split; reflexivity.
Defined.

(** ** A budget that is exactly spent *)

Lemma for_range_spent fs mp k :
  forall t st out st_k,
    passes fs k t st = Returned out st_k ->
    all_changed fs k t st ->
    for_range fs mp k t st = Returned out (warned (budget_message mp) st_k).
Proof.
  induction k as [|k IH]; intros t st out st_k Hp Hc.
  - injection Hp as <- <-. reflexivity.
  - rewrite passes_S in Hp. simpl in Hc. rewrite for_range_S.
    destruct (process_once fs t st) as [t1 st1|e st1]; [|discriminate].
    destruct Hc as [Hne Hc]. apply text_eqb_neq in Hne. rewrite Hne.
    now apply IH.
Qed.

(** X19. A text that takes [k] changing passes to expand needs a budget
    of [k + 1]: with a budget of exactly [k] the expansion returns the
    same, fully expanded text as with any larger budget, but logs the
    budget warning, because the pass that would find the fixed point is
    not run. *)
Theorem expansion_budget_exactly_spent
  (fs : filesystem) (input_text : text) (st : State)
  (k : nat) (out : text) (st_k st' : State) (max_passes : Z)
  (Hpasses : passes fs k input_text st = Returned out st_k)
  (Hchanged : all_changed fs k input_text st)
  (Hfixed : process_once fs out st_k = Returned out st')
  (Hbudget : max_passes = Z.of_nat k) :
  process_with_recursion fs input_text max_passes st
  = Returned out
      {| MISSING_DIR_WARNED := MISSING_DIR_WARNED st_k;
         log := log st_k ++ [budget_message max_passes] |}
  /\ process_with_recursion fs input_text (max_passes + 1) st
     = Returned out st'.
Proof.
  unfold process_with_recursion. split.
  - replace (Z.to_nat max_passes) with k by lia. now apply for_range_spent.
  - apply (for_range_fixed_point fs (max_passes + 1)%Z k _ _ _ out st_k st');
      auto.
    lia.
Qed.

Lemma expansion_budget_exactly_spent_witness :
  let fs := fs_of [("exercises", Directory); ("a.tex", file "A")]%string in
  process_with_recursion fs (str "\exinput{a}") 1 initial_state
  = Returned (str "A")
      {| MISSING_DIR_WARNED := false;
         log := [str "Reached max replacement passes (1). Some nested directives may remain."] |}
  /\ process_with_recursion fs (str "\exinput{a}") 2 initial_state
     = Returned (str "A") initial_state.
Proof.
  intros fs.
  apply (expansion_budget_exactly_spent fs (str "\exinput{a}") initial_state
           1 (str "A") initial_state initial_state 1).
  - reflexivity.
  - simpl. split; [discriminate|exact I].
  - reflexivity.
  - reflexivity.
Defined.

(** ** One occurrence that cannot be resolved *)

(** What [load_file_if_exists] does for an entry that gives no content:
    the warning it logs, or the error of [is_file] that it lets through. *)
Lemma load_file_no_content fs arg path st :
  ensure_tex_extension arg = Ok path ->
  match fs (to_text path) with
  | Regular (Content _) => True
  | Regular (ReadError reason) =>
      load_file_if_exists fs arg st
      = Returned None
          (warned (str "Could not read " ++ to_text path ++ str ": " ++ reason) st)
  | Inaccessible reason =>
      load_file_if_exists fs arg st = Raised (OSError reason) st
  | NoEntry | Directory =>
      load_file_if_exists fs arg st
      = Returned None (warned (str "Missing file: " ++ to_text path) st)
  end.
Proof.
  intros He. destruct (fs (to_text path)) as [| |[c|reason]|reason] eqn:Hf;
    [| |exact I| |].
  - apply load_file_missing; [exact He|]. unfold is_file. now rewrite Hf.
  - apply load_file_missing; [exact He|]. unfold is_file. now rewrite Hf.
  - now apply load_file_unreadable.
  - apply (load_file_stat_raises fs arg path); [exact He|].
    unfold is_file. now rewrite Hf.
Qed.

(** A substitution whose only occurrence makes the callback raise raises
    as the callback does. *)
Lemma sub_pieces_one_raises (callback : text -> text -> M text)
  ps g0 g1 e st :
  hits ps = [(g0, g1)] -> callback g0 g1 st = Raised e st ->
  sub_pieces callback ps st = Raised e st.
Proof.
  intros Hh Hc. induction ps as [|[c|h0 h1] ps IH].
  - discriminate.
  - simpl in Hh. simpl sub_pieces. unfold bind. now rewrite (IH Hh).
  - simpl in Hh. injection Hh as -> -> _. simpl sub_pieces. unfold bind.
    now rewrite Hc.
Qed.

(** X20. The document holds exactly one content-input occurrence, of
    either spelling and with any argument that has a file name, and no
    label token to replace; the base directory exists, and the budget is
    at least one pass.  When there is no regular file at the normalised
    path (no entry, or a directory), the expansion returns the document
    unchanged after its first pass and logs exactly one warning, "Missing
    file" with the path; when the file is there and reading it fails, the
    same with the warning "Could not read", the path and the reason; when
    the entry cannot be examined, so that [is_file] raises [OSError] (a
    name too long, a directory that may not be searched), the expansion
    raises that error in its first pass and logs nothing. *)
Theorem unresolved_single_occurrence
  (fs : filesystem) (doc g0 arg : text) (path : Path)
  (max_passes : Z) (st : State)
  (Hdir : path_exists fs EXERCISES_DIR = Ok true)
  (Hpath : ensure_tex_extension arg = Ok path)
  (Hone : finditer exsetinput_pattern doc = [(g0, arg)]
          /\ finditer exinput_pattern doc = []
          \/ finditer exsetinput_pattern doc = []
             /\ finditer exinput_pattern doc = [(g0, arg)])
  (Hconcepts : finditer printconcepts doc = [])
  (Hproblems : finditer printproblems doc = [])
  (Hreview : finditer printreview doc = [])
  (Hbudget : (1 <= max_passes)%Z) :
  match fs (to_text path) with
  | Regular (Content _) => True
  | Regular (ReadError reason) =>
      process_with_recursion fs doc max_passes st
      = Returned doc
          {| MISSING_DIR_WARNED := MISSING_DIR_WARNED st;
             log := log st ++ [str "Could not read " ++ to_text path
                               ++ str ": " ++ reason] |}
  | Inaccessible reason =>
      process_with_recursion fs doc max_passes st
      = Raised (OSError reason) st
  | NoEntry | Directory =>
      process_with_recursion fs doc max_passes st
      = Returned doc
          {| MISSING_DIR_WARNED := MISSING_DIR_WARNED st;
             log := log st ++ [str "Missing file: " ++ to_text path] |}
  end.
Proof.
  assert (Hgen : forall msg,
            (forall s, load_file_if_exists fs arg s = Returned None (warned msg s)) ->
            process_with_recursion fs doc max_passes st
            = Returned doc (warned msg st)).
  { intros msg Hload.
    assert (Hrepl : forall s, repl fs g0 arg s = Returned g0 (warned msg s)).
    { intros s. rewrite repl_with_dir by exact Hdir. now rewrite Hload. }
    assert (Hsub : forall m, sound m -> finditer m doc = [(g0, arg)] ->
              forall s, sub_fun m (repl fs) doc s = Returned doc (warned msg s)).
    { intros m Hm Hf s. unfold sub_fun.
      rewrite (sub_pieces_verbatim (repl fs) (fun _ _ => warned msg)).
      - fold (finditer m doc). rewrite Hf. simpl fold_left.
        now rewrite scan_text.
      - fold (finditer m doc). rewrite Hf.
        intros h0 h1 s' [[= <- <-]|[]]. apply Hrepl. }
    assert (Hpass : process_once fs doc st = Returned doc (warned msg st)).
    { unfold process_once, bind, replace_exsetinput, replace_exinput.
      destruct Hone as [[H1 H2]|[H1 H2]].
      - rewrite (Hsub _ exsetinput_sound H1).
        rewrite (sub_fun_no_match _ _ _ _ exinput_sound H2).
        unfold ret. now rewrite replace_print_tokens_no_match.
      - rewrite (sub_fun_no_match _ _ _ _ exsetinput_sound H1).
        rewrite (Hsub _ exinput_sound H2).
        unfold ret. now rewrite replace_print_tokens_no_match. }
    unfold process_with_recursion.
    apply (for_range_fixed_point fs max_passes 0 _ doc st doc st);
      [reflexivity|exact I|exact Hpass|lia]. }
  destruct (fs (to_text path)) as [| |[c|reason]|reason] eqn:Hf;
    [| |exact I| |].
  - apply Hgen. intros s.
    pose proof (load_file_no_content fs arg path s Hpath) as H.
    now rewrite Hf in H.
  - apply Hgen. intros s.
    pose proof (load_file_no_content fs arg path s Hpath) as H.
    now rewrite Hf in H.
  - apply (Hgen (str "Could not read " ++ to_text path ++ str ": " ++ reason)).
    intros s.
    pose proof (load_file_no_content fs arg path s Hpath) as H.
    now rewrite Hf in H.
  - assert (Hrepl : repl fs g0 arg st = Raised (OSError reason) st).
    { rewrite repl_with_dir by exact Hdir.
      pose proof (load_file_no_content fs arg path st Hpath) as H.
      rewrite Hf in H. now rewrite H. }
    assert (Hsub : forall m, finditer m doc = [(g0, arg)] ->
              sub_fun m (repl fs) doc st = Raised (OSError reason) st).
    { intros m Hm. unfold sub_fun.
      now apply (sub_pieces_one_raises (repl fs) (scan m doc) g0 arg). }
    assert (Hpass : process_once fs doc st = Raised (OSError reason) st).
    { unfold process_once, bind, replace_exsetinput, replace_exinput.
      destruct Hone as [[H1 H2]|[H1 H2]].
      - now rewrite (Hsub _ H1).
      - rewrite (sub_fun_no_match _ _ _ _ exsetinput_sound H1).
        now rewrite (Hsub _ H2). }
    unfold process_with_recursion.
    destruct (Z.to_nat max_passes) as [|n] eqn:Hn; [lia|].
    simpl for_range. unfold bind. now rewrite Hpass.
Qed.

Lemma unresolved_single_occurrence_witness :
  process_with_recursion
    (fs_of [("exercises", Directory);
            ("exercises/locked.tex", Regular (ReadError (str "Permission denied")))]%string)
    (str "Try \exsetinput{exercises/locked}.") 10 initial_state
  = Returned (str "Try \exsetinput{exercises/locked}.")
      {| MISSING_DIR_WARNED := false;
         log := [str "Could not read exercises/locked.tex: Permission denied"] |}.
Proof.
  apply (unresolved_single_occurrence
           (fs_of [("exercises", Directory);
                   ("exercises/locked.tex",
                    Regular (ReadError (str "Permission denied")))]%string)
           (str "Try \exsetinput{exercises/locked}.")
           (str "\exsetinput{exercises/locked}") (str "exercises/locked")
           (parse (str "exercises/locked.tex")) 10 initial_state);
    try reflexivity.
  - left. split; reflexivity.
  - discriminate.
Defined.
